(** * Derived-variable pipeline of the HKJC scraper ([temp2.py])

    A shallow embedding of [HorseRacingVariableCreator]: the [Race] and
    [RaceWithStats] classes, the four variable creators and the driver
    [compute_derived_variables], followed by the properties of the
    enrichment pass.

    Conventions.
    - A date is the day number of a calendar date (an integer), so that
      [(curr_date - prev_date).days] is integer subtraction.
    - Python exceptions are values of [exn]; a computation that may raise
      returns a [result].
    - A float is kept as the operation that produced it together with its
      exact integer operands ([pyfloat]); rounding to binary64 is outside
      the model.
    - [defaultdict(list)] is a [gmap] whose missing keys read as [[]]. *)

From stdpp Require Import gmap strings list sorting.
From Stdlib Require Import ZArith Lia.

Local Open Scope Z_scope.

(** ** Exceptions *)

Inductive exn : Set :=
  | ZeroDivisionError
  | IndexError.

Inductive result (A : Type) : Type :=
  | Ok (a : A)
  | Raise (e : exn).
Arguments Ok {A} a.
Arguments Raise {A} e.

Global Instance result_ret : MRet result := λ A a, Ok a.
Global Instance result_bind : MBind result := λ A B f m,
  match m with
  | Ok a => f a
  | Raise e => Raise e
  end.

Definition raises {A} (m : result A) : Prop :=
  match m with
  | Ok _ => False
  | Raise _ => True
  end.

(** ** Floats, symbolically *)

Inductive pyfloat : Set :=
  | FZero                 (* the literal 0.0 *)
  | FQuot (a b : Z)       (* a / b on ints, b <> 0 *)
  | FLog1p (n : Z)        (* np.log1p(n) *)
  | FSqrt (n : Z).        (* np.sqrt(n) *)

Global Instance pyfloat_eq_dec : EqDecision pyfloat.
Proof. solve_decision. Defined.

(** [a / b] on Python ints. *)
Definition true_div (a b : Z) : result pyfloat :=
  if decide (b = 0) then Raise ZeroDivisionError else Ok (FQuot a b).

(** ** Data classes *)

(** [class Race]: the twenty-two attributes read from the input row. *)
Record Race : Set := mkRace {
  horse_id : string;
  race_index : Z;
  date : Z;
  season : string;
  racecourse : string;
  track : string;
  course : string;
  dist : string;
  g : string;
  race_class : string;
  dr : string;
  rtg : string;
  trainer : string;
  jockey : string;
  act_wt : string;
  declar_horse_wt : string;
  gear : string;
  pla : string;
  lbw : string;
  running_position : string;
  finish_time : string;
  win_odds : string
}.

Global Instance Race_eq_dec : EqDecision Race.
Proof. solve_decision. Defined.

(** [class RaceWithStats(Race)]: the inherited attributes are kept in
    [original]; the rest are the derived variables. *)
Record RaceWithStats : Set := mkStats {
  original : Race;
  num_races_run : Z;
  num_races_top1 : Z;
  num_races_top2 : Z;
  num_races_top3 : Z;
  percent_races_top1 : pyfloat;
  percent_races_top2 : pyfloat;
  percent_races_top3 : pyfloat;
  num_races_run_seasonal : Z;
  days_since_last_run : Z;
  days_since_last_run_log : pyfloat;
  days_since_last_run_sqrt : pyfloat;
  jokey_num_races_run : Z
}.

Global Instance RaceWithStats_eq_dec : EqDecision RaceWithStats.
Proof. solve_decision. Defined.

(** [RaceWithStats.__init__]: copy the attributes of [original], then set
    every derived variable to its default. *)
Definition new_RaceWithStats (original : Race) : RaceWithStats :=
  {| original := original;
     num_races_run := 0;
     num_races_top1 := 0;
     num_races_top2 := 0;
     num_races_top3 := 0;
     percent_races_top1 := FZero;
     percent_races_top2 := FZero;
     percent_races_top3 := FZero;
     num_races_run_seasonal := 0;
     days_since_last_run := 0;
     days_since_last_run_log := FZero;
     days_since_last_run_sqrt := FZero;
     jokey_num_races_run := 0 |}.

(** The derived variables of an enriched record, without the inherited
    attributes. *)
Definition derived (rs : RaceWithStats) :=
  (num_races_run rs, num_races_top1 rs, num_races_top2 rs, num_races_top3 rs,
   percent_races_top1 rs, percent_races_top2 rs, percent_races_top3 rs,
   num_races_run_seasonal rs,
   days_since_last_run rs, days_since_last_run_log rs,
   days_since_last_run_sqrt rs,
   jokey_num_races_run rs).

(** ** collections.Counter and defaultdict(list) *)

(** [Counter(xs)]: one more for every occurrence. *)
Definition Counter (xs : list string) : gmap string Z :=
  foldl (λ c x, <[x := default 0 (c !! x) + 1]> c) ∅ xs.

(** [counts[k]]: a missing key reads as 0. *)
Definition counter_get (c : gmap string Z) (k : string) : Z :=
  default 0 (c !! k).

Section defaultdict.
Context {K : Type} `{Countable K} {V : Type}.

(** [d.get(k, [])] *)
Definition dd_get (k : K) (d : gmap K (list V)) : list V :=
  default [] (d !! k).

(** [d[k].append(v)] *)
Definition dd_append (k : K) (v : V) (d : gmap K (list V)) : gmap K (list V) :=
  <[k := dd_get k d ++ [v]]> d.
End defaultdict.

(** [xs[-1]] *)
Definition last_item {A} (xs : list A) : result A :=
  match last xs with
  | Some x => Ok x
  | None => Raise IndexError
  end.

(** ** Variable creators *)

Definition creator : Type := RaceWithStats → list Race → result RaceWithStats.

Definition top3_codes : list string := ["01"; "02"; "03"]%string.

Definition _compute_num_races_run : creator := λ race_stats prior_races,
  let counts :=
    Counter (filter (λ p, p ∈ top3_codes) (pla <$> prior_races)) in
  let num_races_run := Z.of_nat (length prior_races) in
  let c01 := counter_get counts "01" in
  let c02 := counter_get counts "02" in
  let c03 := counter_get counts "03" in
  p1 ← true_div c01 num_races_run;
  p2 ← true_div (c01 + c02) num_races_run;
  p3 ← true_div (c01 + c02 + c03) num_races_run;
  Ok {| original := original race_stats;
        num_races_run := num_races_run;
        num_races_top1 := c01;
        num_races_top2 := c01 + c02;
        num_races_top3 := c01 + c02 + c03;
        percent_races_top1 := p1;
        percent_races_top2 := p2;
        percent_races_top3 := p3;
        num_races_run_seasonal := num_races_run_seasonal race_stats;
        days_since_last_run := days_since_last_run race_stats;
        days_since_last_run_log := days_since_last_run_log race_stats;
        days_since_last_run_sqrt := days_since_last_run_sqrt race_stats;
        jokey_num_races_run := jokey_num_races_run race_stats |}.

(** [sum(1 for race in prior_races if race.season == s)] *)
Definition count_season (s : string) (prior_races : list Race) : Z :=
  Z.of_nat (length (filter (λ race, season race = s) prior_races)).

Definition _compute_num_races_run_seasonal : creator := λ race_stats prior_races,
  Ok {| original := original race_stats;
        num_races_run := num_races_run race_stats;
        num_races_top1 := num_races_top1 race_stats;
        num_races_top2 := num_races_top2 race_stats;
        num_races_top3 := num_races_top3 race_stats;
        percent_races_top1 := percent_races_top1 race_stats;
        percent_races_top2 := percent_races_top2 race_stats;
        percent_races_top3 := percent_races_top3 race_stats;
        num_races_run_seasonal :=
          count_season (season (original race_stats)) prior_races;
        days_since_last_run := days_since_last_run race_stats;
        days_since_last_run_log := days_since_last_run_log race_stats;
        days_since_last_run_sqrt := days_since_last_run_sqrt race_stats;
        jokey_num_races_run := jokey_num_races_run race_stats |}.

Definition _compute_days_since_last_run : creator := λ race_stats prior_races,
  prev ← last_item prior_races;
  let prev_date := date prev in
  let curr_date := date (original race_stats) in
  let days := curr_date - prev_date in
  Ok {| original := original race_stats;
        num_races_run := num_races_run race_stats;
        num_races_top1 := num_races_top1 race_stats;
        num_races_top2 := num_races_top2 race_stats;
        num_races_top3 := num_races_top3 race_stats;
        percent_races_top1 := percent_races_top1 race_stats;
        percent_races_top2 := percent_races_top2 race_stats;
        percent_races_top3 := percent_races_top3 race_stats;
        num_races_run_seasonal := num_races_run_seasonal race_stats;
        days_since_last_run := days;
        days_since_last_run_log := FLog1p days;
        days_since_last_run_sqrt := FSqrt days;
        jokey_num_races_run := jokey_num_races_run race_stats |}.

Definition _compute_jockey_num_races_run : creator := λ race_stats prior_races,
  Ok {| original := original race_stats;
        num_races_run := num_races_run race_stats;
        num_races_top1 := num_races_top1 race_stats;
        num_races_top2 := num_races_top2 race_stats;
        num_races_top3 := num_races_top3 race_stats;
        percent_races_top1 := percent_races_top1 race_stats;
        percent_races_top2 := percent_races_top2 race_stats;
        percent_races_top3 := percent_races_top3 race_stats;
        num_races_run_seasonal := num_races_run_seasonal race_stats;
        days_since_last_run := days_since_last_run race_stats;
        days_since_last_run_log := days_since_last_run_log race_stats;
        days_since_last_run_sqrt := days_since_last_run_sqrt race_stats;
        jokey_num_races_run :=
          count_season (season (original race_stats)) prior_races |}.

(** The registries set up by [HorseRacingVariableCreator.__init__]. *)
Definition variable_creators : list creator :=
  [_compute_num_races_run;
   _compute_num_races_run_seasonal;
   _compute_days_since_last_run].

Definition jockey_variable_creators : list creator :=
  [_compute_jockey_num_races_run].

(** ** list.sort(key=lambda r: (r.date, r.race_index)) *)

Definition race_key (r : Race) : Z * Z := (date r, race_index r).

(** Tuple comparison: lexicographic. *)
Definition key_lt (a b : Z * Z) : Prop :=
  a.1 < b.1 ∨ (a.1 = b.1 ∧ a.2 < b.2).

Definition key_le (a b : Z * Z) : Prop :=
  a.1 < b.1 ∨ (a.1 = b.1 ∧ a.2 ≤ b.2).

Global Instance key_lt_dec a b : Decision (key_lt a b).
Proof. unfold key_lt. apply _. Defined.

Global Instance key_le_dec a b : Decision (key_le a b).
Proof. unfold key_le. apply _. Defined.

Definition race_lt (x y : Race) : Prop := key_lt (race_key x) (race_key y).
Definition race_le (x y : Race) : Prop := key_le (race_key x) (race_key y).

Global Instance race_lt_dec x y : Decision (race_lt x y).
Proof. unfold race_lt. apply _. Defined.

Global Instance race_le_dec x y : Decision (race_le x y).
Proof. unfold race_le. apply _. Defined.

(** [list.sort] is a stable sort, and a stable sort has one possible
    result; it is computed here by insertion, the new element going in
    front of the first element that is not smaller than it. *)
Fixpoint insert_race (r : Race) (l : list Race) : list Race :=
  match l with
  | [] => [r]
  | x :: l' =>
      if decide (race_lt x r) then x :: insert_race r l' else r :: x :: l'
  end.

Fixpoint sort_races (l : list Race) : list Race :=
  match l with
  | [] => []
  | r :: l' => insert_race r (sort_races l')
  end.

(** ** The driver *)

(** The local variables of [compute_derived_variables]. *)
Record locals : Type := mkLocals {
  horse_races_map : gmap string (list Race);
  jockey_races_map : gmap string (list Race);
  race_group_map : gmap (Z * Z) (list RaceWithStats);
  enhanced_races : list RaceWithStats
}.

Definition init_locals : locals :=
  {| horse_races_map := ∅;
     jockey_races_map := ∅;
     race_group_map := ∅;
     enhanced_races := [] |}.

(** [for func in creators: prior_races = m.get(key, []); if prior_races:
    func(race_stats, prior_races)] *)
Fixpoint run_creators (key : RaceWithStats → string)
    (m : gmap string (list Race)) (creators : list creator)
    (race_stats : RaceWithStats) : result RaceWithStats :=
  match creators with
  | [] => Ok race_stats
  | func :: rest =>
      let prior_races := dd_get (key race_stats) m in
      race_stats' ←
        match prior_races with
        | [] => Ok race_stats
        | _ :: _ => func race_stats prior_races
        end;
      run_creators key m rest race_stats'
  end.

(** Lines 176-186: build the enriched record of [race] from the
    histories collected so far. *)
Definition enrich (st : locals) (race : Race) : result RaceWithStats :=
  let race_stats := new_RaceWithStats race in
  race_stats ←
    run_creators (λ rs, horse_id (original rs)) (horse_races_map st)
      variable_creators race_stats;
  run_creators (λ rs, jockey (original rs)) (jockey_races_map st)
    jockey_variable_creators race_stats.

(** Lines 188-190: file the enriched record under its race and the raw
    record under its horse and its jockey. *)
Definition remember (st : locals) (race : Race) (race_stats : RaceWithStats)
    : locals :=
  {| horse_races_map := dd_append (horse_id race) race (horse_races_map st);
     jockey_races_map := dd_append (jockey race) race (jockey_races_map st);
     race_group_map :=
       dd_append (date (original race_stats), race_index (original race_stats))
         race_stats (race_group_map st);
     enhanced_races := enhanced_races st |}.

Definition loop_body (st : locals) (race : Race) : result locals :=
  race_stats ← enrich st race;
  Ok (remember st race race_stats).

(** [for race in all_races: ...] *)
Fixpoint for_loop (st : locals) (all_races : list Race) : result locals :=
  match all_races with
  | [] => Ok st
  | race :: rest => st' ← loop_body st race; for_loop st' rest
  end.

(** The call returns [enhanced_races]; the caller's list, sorted in
    place, is returned next to it. *)
Definition compute_derived_variables (all_races : list Race)
    : result (list Race * list RaceWithStats) :=
  let all_races := sort_races all_races in
  st ← for_loop init_locals all_races;
  Ok (all_races, enhanced_races st).

(** The [race_stats] objects the loop creates, in order of creation. *)
Fixpoint created (st : locals) (all_races : list Race)
    : result (list RaceWithStats) :=
  match all_races with
  | [] => Ok []
  | race :: rest =>
      race_stats ← enrich st race;
      others ← created (remember st race race_stats) rest;
      Ok (race_stats :: others)
  end.

(** The enriched records of a call, in order of creation. *)
Definition enriched_records (all_races : list Race)
    : result (list RaceWithStats) :=
  created init_locals (sort_races all_races).

(** ** race_with_stats_to_csv and the script *)

(** What a call of [race_with_stats_to_csv] leaves behind: the string it
    returns and the text it wrote to [testing.csv], if it opened it. *)
Record csv_outcome : Set := mkOutcome {
  csv_content : string;
  testing_csv : option string
}.

Section to_csv.
(** The text [csv.DictWriter] builds for a non-empty list: the header
    from the attributes of the first record, then one row per record. *)
Variable render_csv : list RaceWithStats → string.

Definition race_with_stats_to_csv (races : list RaceWithStats) : csv_outcome :=
  match races with
  | [] => {| csv_content := EmptyString; testing_csv := None |}
  | _ :: _ =>
      let csv_text := render_csv races in
      {| csv_content := csv_text; testing_csv := Some csv_text |}
  end.

(** The end of the script: [results = compute_derived_variables(all_races)]
    then [race_with_stats_to_csv(results)]. *)
Definition script (all_races : list Race) : result csv_outcome :=
  out ← compute_derived_variables all_races;
  Ok (race_with_stats_to_csv out.2).
End to_csv.

(** * Vocabulary of the statements *)

(** ** Closed forms *)

(** Number of entries of a history whose finishing position is [code]. *)
Definition placed (code : string) (prior_races : list Race) : Z :=
  Z.of_nat (length (filter (λ race, pla race = code) prior_races)).

(** A rate of the run-count creator: the default on an empty history,
    the quotient by the length of the history otherwise. *)
Definition horse_rate (code_count : Z) (prior_races : list Race) : pyfloat :=
  match prior_races with
  | [] => FZero
  | _ :: _ => FQuot code_count (Z.of_nat (length prior_races))
  end.

(** What [enrich] computes, as one expression of the record, the history
    [H] of its horse and the history [J] of its jockey. *)
Definition stats_of (race : Race) (H J : list Race) : RaceWithStats :=
  {| original := race;
     num_races_run := Z.of_nat (length H);
     num_races_top1 := placed "01" H;
     num_races_top2 := placed "01" H + placed "02" H;
     num_races_top3 := placed "01" H + placed "02" H + placed "03" H;
     percent_races_top1 := horse_rate (placed "01" H) H;
     percent_races_top2 := horse_rate (placed "01" H + placed "02" H) H;
     percent_races_top3 :=
       horse_rate (placed "01" H + placed "02" H + placed "03" H) H;
     num_races_run_seasonal := count_season (season race) H;
     days_since_last_run :=
       match last H with Some prev => date race - date prev | None => 0 end;
     days_since_last_run_log :=
       match last H with
       | Some prev => FLog1p (date race - date prev)
       | None => FZero
       end;
     days_since_last_run_sqrt :=
       match last H with
       | Some prev => FSqrt (date race - date prev)
       | None => FZero
       end;
     jokey_num_races_run := count_season (season race) J |}.

(** After the records [pre], the history of a horse (of a jockey) is the
    list of its records in [pre], in the order of [pre]. *)
Definition tracks (st : locals) (pre : list Race) : Prop :=
  (∀ h, dd_get h (horse_races_map st) = filter (λ x, horse_id x = h) pre) ∧
  (∀ j, dd_get j (jockey_races_map st) = filter (λ x, jockey x = j) pre).

(** The records created from [s] when the records [pre] have been
    processed before. *)
Fixpoint replay (pre s : list Race) : list RaceWithStats :=
  match s with
  | [] => []
  | race :: rest =>
      stats_of race (filter (λ x, horse_id x = horse_id race) pre)
        (filter (λ x, jockey x = jockey race) pre)
      :: replay (pre ++ [race]) rest
  end.

(** The record created for [race] when the histories are read off the
    whole sorted list [s]: the records of the same horse (jockey) that
    are strictly earlier. *)
Definition view (s : list Race) (race : Race) : RaceWithStats :=
  stats_of race
    (filter (λ x, race_lt x race) (filter (λ x, horse_id x = horse_id race) s))
    (filter (λ x, race_lt x race) (filter (λ x, jockey x = jockey race) s)).

(** The records with one value of [f] ([horse_id] or [jockey]) have
    distinct sort keys. *)
Definition keys_apart (f : Race → string) (l : list Race) : Prop :=
  ∀ v, NoDup (race_key <$> filter (λ x, f x = v) l).

(** ** Properties of a call *)

(** The call on [all_races] creates [race_stats] in iteration [i] of its
    loop (counting from 0). *)
Definition creates_at (all_races : list Race) (i : nat)
    (race_stats : RaceWithStats) : Prop :=
  ∃ enriched,
    enriched_records all_races = Ok enriched ∧ enriched !! i = Some race_stats.

(** The claim that every entry of a history read for a record is
    strictly earlier than the record. *)
Definition histories_strictly_earlier (all_races : list Race) : Prop :=
  ∀ pre race suf st,
    sort_races all_races = pre ++ race :: suf →
    for_loop init_locals pre = Ok st →
    ∀ x, x ∈ dd_get (horse_id race) (horse_races_map st)
         ∨ x ∈ dd_get (jockey race) (jockey_races_map st) →
         race_lt x race.

(** No two records of the same race share a horse or a jockey. *)
Definition tie_free (l : list Race) : Prop :=
  ForallOrdPairs
    (λ x y, race_key x = race_key y →
            horse_id x ≠ horse_id y ∧ jockey x ≠ jockey y) l.

(** The claim that the records created for two input lists are the same
    up to their order. *)
Definition order_independent (all_races all_races' : list Race) : Prop :=
  ∀ enriched enriched',
    enriched_records all_races = Ok enriched →
    enriched_records all_races' = Ok enriched' →
    enriched ≡ₚ enriched'.

(** The variables set by the creators of the horse. *)
Definition horse_derived (rs : RaceWithStats) :=
  (num_races_run rs, num_races_top1 rs, num_races_top2 rs, num_races_top3 rs,
   percent_races_top1 rs, percent_races_top2 rs, percent_races_top3 rs,
   num_races_run_seasonal rs,
   days_since_last_run rs, days_since_last_run_log rs,
   days_since_last_run_sqrt rs).

(** ** Sample records *)

(** A record with the listed attributes and the others empty. *)
Definition example_race (h j : string) (d i : Z) (s p : string) : Race :=
  {| horse_id := h; race_index := i; date := d; season := s;
     racecourse := ""; track := ""; course := ""; dist := ""; g := "";
     race_class := ""; dr := ""; rtg := ""; trainer := ""; jockey := j;
     act_wt := ""; declar_horse_wt := ""; gear := ""; pla := p; lbw := "";
     running_position := ""; finish_time := ""; win_odds := "" |}.

(** Horse A wins race 1 of day 10 under jockey J. *)
Definition ex_first : Race := example_race "A" "J" 10 1 "24" "01".
(** In the same race, horse B under the same jockey id. *)
Definition ex_same_jockey : Race := example_race "B" "J" 10 1 "24" "05".
(** In the same race, horse B under jockey K. *)
Definition ex_other : Race := example_race "B" "K" 10 1 "24" "05".
(** Horse A again, ten days later, under jockey K. *)
Definition ex_later : Race := example_race "A" "K" 20 2 "24" "03".
(** The same entry with another outcome. *)
Definition ex_later_withdrawn : Race := example_race "A" "K" 20 2 "24" "WV".
(** Horse A a third time. *)
Definition ex_last : Race := example_race "A" "J" 30 3 "24" "02".

(** * Properties *)

(** ** The comparison of sort keys *)

Lemma race_lt_le x y : race_lt x y → race_le x y.
Proof. unfold race_lt, race_le, key_lt, key_le. lia. Qed.

Lemma race_not_lt_le x y : ¬ race_lt x y → race_le y x.
Proof. unfold race_lt, race_le, key_lt, key_le. lia. Qed.

Lemma race_lt_irrefl x : ¬ race_lt x x.
Proof. unfold race_lt, key_lt. lia. Qed.

Lemma race_lt_key_ne x y : race_lt x y → race_key x ≠ race_key y.
Proof. intros Hlt Heq. unfold race_lt in Hlt. rewrite Heq in Hlt.
  unfold key_lt in Hlt. lia. Qed.

Lemma race_le_lt_or_eq x y :
  race_le x y → race_lt x y ∨ race_key x = race_key y.
Proof.
  unfold race_le, race_lt, key_le, key_lt.
  destruct (race_key x) as [d i], (race_key y) as [d' i']; simpl.
  intros [?|[? ?]]; [by left; left|].
  destruct (decide (i = i')); [right; congruence | left; right; lia].
Qed.

Lemma race_le_lt_trans x y z : race_le x y → race_lt y z → race_lt x z.
Proof. unfold race_lt, race_le, key_lt, key_le. lia. Qed.

Global Instance race_le_trans : Transitive race_le.
Proof. intros x y z. unfold race_le, key_le. lia. Qed.

Lemma race_le_date x y : race_le x y → date x ≤ date y.
Proof. unfold race_le, key_le, race_key; simpl. lia. Qed.

(** ** The sort: ordered, a rearrangement, and stable *)

Lemma insert_race_Permutation r l : insert_race r l ≡ₚ r :: l.
Proof.
  induction l as [|x l IH]; simpl; [done|].
  case_decide; [|done].
  rewrite IH. apply Permutation_swap.
Qed.

Lemma sort_races_Permutation l : sort_races l ≡ₚ l.
Proof.
  induction l as [|r l IH]; simpl; [done|].
  by rewrite insert_race_Permutation, IH.
Qed.

Lemma insert_race_sorted r l :
  StronglySorted race_le l → StronglySorted race_le (insert_race r l).
Proof.
  induction 1 as [|x l Hl IH Hx]; simpl.
  { by repeat constructor. }
  case_decide as Hlt.
  - constructor; [done|].
    rewrite insert_race_Permutation. constructor; [|done].
    by apply race_lt_le.
  - apply race_not_lt_le in Hlt.
    constructor; [by constructor|].
    constructor; [done|].
    eapply Forall_impl; [exact Hx|]. intros y Hy. by etrans.
Qed.

Lemma sort_races_sorted l : StronglySorted race_le (sort_races l).
Proof.
  induction l as [|r l IH]; simpl; [constructor|].
  by apply insert_race_sorted.
Qed.

Lemma insert_race_stable k r l :
  filter (λ x, race_key x = k) (insert_race r l)
  = filter (λ x, race_key x = k) (r :: l).
Proof.
  induction l as [|x l IH]; simpl; [done|].
  case_decide as Hlt; [|done].
  apply race_lt_key_ne in Hlt.
  rewrite (filter_cons _ x), IH, !(filter_cons _ r), !(filter_cons _ x).
  repeat case_decide; congruence.
Qed.

Lemma sort_races_stable k l :
  filter (λ x, race_key x = k) (sort_races l)
  = filter (λ x, race_key x = k) l.
Proof.
  induction l as [|r l IH]; simpl; [done|].
  rewrite insert_race_stable, !filter_cons, IH. done.
Qed.

(** A list that is already in order is left as it is. *)
Lemma sort_races_id l : StronglySorted race_le l → sort_races l = l.
Proof.
  induction 1 as [|x l Hl IH Hx]; simpl; [done|].
  rewrite IH. destruct Hx as [|y l' Hy _]; simpl; [done|].
  case_decide as Hlt; [|done].
  exfalso. eapply race_lt_irrefl, race_le_lt_trans; done.
Qed.

(** ** Counter *)

Lemma Counter_fold (c : gmap string Z) xs k :
  counter_get
    (foldl (λ c x, <[x := default 0 (c !! x) + 1]> c) c xs) k
  = counter_get c k + Z.of_nat (length (filter (λ x, x = k) xs)).
Proof.
  revert c. induction xs as [|x xs IH]; intros c; simpl.
  { unfold counter_get. simpl. lia. }
  rewrite IH, filter_cons. unfold counter_get.
  case_decide as Hx.
  - subst x. rewrite lookup_insert_eq. simpl. lia.
  - by rewrite lookup_insert_ne.
Qed.

Lemma Counter_get xs k :
  counter_get (Counter xs) k = Z.of_nat (length (filter (λ x, x = k) xs)).
Proof.
  unfold Counter. rewrite Counter_fold. unfold counter_get.
  by rewrite lookup_empty.
Qed.

Lemma Counter_placed code prior_races :
  code ∈ top3_codes →
  counter_get
    (Counter (filter (λ p, p ∈ top3_codes) (pla <$> prior_races))) code
  = placed code prior_races.
Proof.
  intros Hcode. rewrite Counter_get. unfold placed. do 2 f_equal.
  induction prior_races as [|x l IH]; [done|].
  rewrite fmap_cons, (filter_cons _ (pla x)), (filter_cons _ x).
  case_decide as Hin; case_decide as Heq; try (rewrite filter_cons);
    try case_decide; try congruence; simpl; rewrite ?IH; try done.
Qed.

(** ** The creators on a history *)

Lemma true_div_ok a b : b ≠ 0 → true_div a b = Ok (FQuot a b).
Proof. intros Hb. unfold true_div. by case_decide. Qed.

Lemma true_div_zero a : true_div a 0 = Raise ZeroDivisionError.
Proof. done. Qed.

(** Called on an empty history the creators that divide or index raise:
    the driver's [if prior_races:] is what keeps them from doing so. *)
Lemma _compute_num_races_run_empty race_stats :
  _compute_num_races_run race_stats [] = Raise ZeroDivisionError.
Proof. done. Qed.

Lemma _compute_days_since_last_run_empty race_stats :
  _compute_days_since_last_run race_stats [] = Raise IndexError.
Proof. done. Qed.

Lemma top3_codes_01 : "01"%string ∈ top3_codes.
Proof. unfold top3_codes. set_solver. Qed.
Lemma top3_codes_02 : "02"%string ∈ top3_codes.
Proof. unfold top3_codes. set_solver. Qed.
Lemma top3_codes_03 : "03"%string ∈ top3_codes.
Proof. unfold top3_codes. set_solver. Qed.

Lemma _compute_num_races_run_cons race_stats x H :
  _compute_num_races_run race_stats (x :: H)
  = Ok {| original := original race_stats;
          num_races_run := Z.of_nat (length (x :: H));
          num_races_top1 := placed "01" (x :: H);
          num_races_top2 := placed "01" (x :: H) + placed "02" (x :: H);
          num_races_top3 :=
            placed "01" (x :: H) + placed "02" (x :: H) + placed "03" (x :: H);
          percent_races_top1 :=
            FQuot (placed "01" (x :: H)) (Z.of_nat (length (x :: H)));
          percent_races_top2 :=
            FQuot (placed "01" (x :: H) + placed "02" (x :: H))
              (Z.of_nat (length (x :: H)));
          percent_races_top3 :=
            FQuot
              (placed "01" (x :: H) + placed "02" (x :: H) + placed "03" (x :: H))
              (Z.of_nat (length (x :: H)));
          num_races_run_seasonal := num_races_run_seasonal race_stats;
          days_since_last_run := days_since_last_run race_stats;
          days_since_last_run_log := days_since_last_run_log race_stats;
          days_since_last_run_sqrt := days_since_last_run_sqrt race_stats;
          jokey_num_races_run := jokey_num_races_run race_stats |}.
Proof.
  unfold _compute_num_races_run.
  rewrite (Counter_placed _ _ top3_codes_01), (Counter_placed _ _ top3_codes_02),
    (Counter_placed _ _ top3_codes_03).
  assert (Z.of_nat (length (x :: H)) ≠ 0) as Hlen by (simpl; lia).
  cbv zeta. rewrite !(true_div_ok _ _ Hlen). done.
Qed.

Lemma run_creators_nil key m race_stats :
  run_creators key m [] race_stats = Ok race_stats.
Proof. done. Qed.

Lemma run_creators_skip key m func rest race_stats :
  dd_get (key race_stats) m = [] →
  run_creators key m (func :: rest) race_stats
  = run_creators key m rest race_stats.
Proof. intros E. simpl. by rewrite E. Qed.

Lemma run_creators_call key m func rest race_stats race_stats' :
  dd_get (key race_stats) m ≠ [] →
  func race_stats (dd_get (key race_stats) m) = Ok race_stats' →
  run_creators key m (func :: rest) race_stats
  = run_creators key m rest race_stats'.
Proof.
  intros E Hf. simpl. destruct (dd_get (key race_stats) m); [done|].
  by rewrite Hf.
Qed.

Lemma enrich_stats_of st race :
  enrich st race
  = Ok (stats_of race (dd_get (horse_id race) (horse_races_map st))
          (dd_get (jockey race) (jockey_races_map st))).
Proof.
  unfold enrich, variable_creators, jockey_variable_creators.
  set (J := dd_get (jockey race) (jockey_races_map st)).
  destruct (dd_get (horse_id race) (horse_races_map st)) as [|x H] eqn:EH.
  - rewrite !run_creators_skip, run_creators_nil by done.
    cbn [mbind result_bind].
    destruct J as [|y J'] eqn:EJ.
    + by rewrite run_creators_skip, run_creators_nil.
    + erewrite run_creators_call, run_creators_nil;
        [done | by simpl; fold J; rewrite EJ | by simpl; fold J; rewrite EJ].
  - destruct (last (x :: H)) as [prev|] eqn:EL.
    2: { apply last_None in EL. done. }
    erewrite run_creators_call;
      [| by simpl; rewrite EH
       | simpl; rewrite EH; apply _compute_num_races_run_cons].
    erewrite run_creators_call;
      [| by simpl; rewrite EH | simpl; rewrite EH; reflexivity].
    erewrite run_creators_call, run_creators_nil;
      [| by simpl; rewrite EH
       | simpl; rewrite EH; unfold _compute_days_since_last_run, last_item;
         rewrite EL; reflexivity].
    cbn [mbind result_bind].
    unfold stats_of. rewrite EL.
    destruct J as [|y J'] eqn:EJ.
    + by rewrite run_creators_skip, run_creators_nil.
    + erewrite run_creators_call, run_creators_nil;
        [done | by simpl; fold J; rewrite EJ | by simpl; fold J; rewrite EJ].
Qed.

(** ** The histories kept by the loop *)

Lemma dd_get_append {K} `{Countable K} {V} (k k' : K) (v : V) d :
  dd_get k' (dd_append k v d)
  = if decide (k = k') then dd_get k d ++ [v] else dd_get k' d.
Proof.
  unfold dd_append, dd_get at 1. rewrite lookup_insert.
  by case_decide.
Qed.

Lemma tracks_init : tracks init_locals [].
Proof. split; intros k; unfold dd_get; simpl; by rewrite lookup_empty. Qed.

Lemma tracks_remember st pre race race_stats :
  tracks st pre → tracks (remember st race race_stats) (pre ++ [race]).
Proof.
  intros [Hh Hj]. split; intros k; simpl; rewrite dd_get_append, filter_app.
  - rewrite filter_cons, filter_nil.
    case_decide; rewrite Hh; [by subst|]. by rewrite app_nil_r.
  - rewrite filter_cons, filter_nil.
    case_decide; rewrite Hj; [by subst|]. by rewrite app_nil_r.
Qed.

Lemma for_loop_tracks st pre s :
  tracks st pre →
  ∃ st', for_loop st s = Ok st' ∧ tracks st' (pre ++ s)
         ∧ enhanced_races st' = enhanced_races st.
Proof.
  revert st pre. induction s as [|race s IH]; intros st pre Ht; simpl.
  { exists st. by rewrite app_nil_r. }
  unfold loop_body. rewrite enrich_stats_of. cbn [mbind result_bind].
  destruct (IH _ _ (tracks_remember _ _ race
    (stats_of race (dd_get (horse_id race) (horse_races_map st))
       (dd_get (jockey race) (jockey_races_map st))) Ht))
    as (st' & Hrun & Ht' & He).
  exists st'. rewrite Hrun. rewrite <- app_assoc in Ht'. done.
Qed.

(** The loop over a list that is cut in two: the second part starts in
    the state the first part leaves. *)
Lemma for_loop_app st s1 s2 :
  for_loop st (s1 ++ s2) = for_loop st s1 ≫= λ st', for_loop st' s2.
Proof.
  revert st. induction s1 as [|race s1 IH]; intros st; simpl; [done|].
  destruct (loop_body st race) as [st'|e]; simpl; [apply IH|done].
Qed.

Lemma for_loop_init s :
  ∃ st, for_loop init_locals s = Ok st ∧ tracks st s ∧ enhanced_races st = [].
Proof. apply (for_loop_tracks init_locals [] s tracks_init). Qed.

(** The iteration that follows the records [pre]: the loop reaches it
    without raising, and the record it creates is [stats_of] on the
    earlier records of the same horse and of the same jockey. *)
Lemma iteration pre race :
  ∃ st, for_loop init_locals pre = Ok st ∧ tracks st pre ∧
    enrich st race
    = Ok (stats_of race (filter (λ x, horse_id x = horse_id race) pre)
            (filter (λ x, jockey x = jockey race) pre)).
Proof.
  destruct (for_loop_init pre) as (st & Hrun & Ht & _).
  exists st. split_and!; [done..|].
  rewrite enrich_stats_of. destruct Ht as [Hh Hj]. by rewrite Hh, Hj.
Qed.

Lemma sorted_prefix_le all_races pre race suf x :
  sort_races all_races = pre ++ race :: suf → x ∈ pre → race_le x race.
Proof.
  intros Hs Hx. pose proof (sort_races_sorted all_races) as Hsorted.
  rewrite Hs in Hsorted.
  eapply StronglySorted_app_1_elem_of; [exact Hsorted|done|by left].
Qed.

Lemma horse_rate_cons c x H :
  horse_rate c (x :: H) = FQuot c (Z.of_nat (length (x :: H))).
Proof. done. Qed.

Lemma placed_none code H :
  Forall (λ x, pla x ≠ code) H → placed code H = 0.
Proof.
  unfold placed. induction 1 as [|x H Hx _ IH]; [done|].
  by rewrite filter_cons_False.
Qed.

(** ** The records created by the loop *)

Lemma created_replay st pre s :
  tracks st pre → created st s = Ok (replay pre s).
Proof.
  revert st pre. induction s as [|race s IH]; intros st pre Ht; simpl; [done|].
  rewrite enrich_stats_of. cbn [mbind result_bind].
  rewrite (IH _ (pre ++ [race])) by by apply tracks_remember.
  destruct Ht as [Hh Hj]. by rewrite Hh, Hj.
Qed.

Lemma enriched_records_replay all_races :
  enriched_records all_races = Ok (replay [] (sort_races all_races)).
Proof. apply created_replay, tracks_init. Qed.

Lemma replay_lookup pre s1 race s2 :
  replay pre (s1 ++ race :: s2) !! length s1
  = Some (stats_of race
            (filter (λ x, horse_id x = horse_id race) (pre ++ s1))
            (filter (λ x, jockey x = jockey race) (pre ++ s1))).
Proof.
  revert pre. induction s1 as [|y s1 IH]; intros pre; simpl.
  { by rewrite app_nil_r. }
  rewrite IH, <- app_assoc. done.
Qed.

(** The loop files the records it creates in [race_group_map], under the
    key of their race and in order of creation. *)
Lemma for_loop_groups st pre l0 s :
  tracks st pre →
  (∀ k, dd_get k (race_group_map st)
        = filter (λ rs, race_key (original rs) = k) l0) →
  ∃ st', for_loop st s = Ok st' ∧
    ∀ k, dd_get k (race_group_map st')
         = filter (λ rs, race_key (original rs) = k) (l0 ++ replay pre s).
Proof.
  revert st pre l0. induction s as [|race s IH]; intros st pre l0 Ht Hg; simpl.
  { exists st. by rewrite app_nil_r. }
  unfold loop_body. rewrite enrich_stats_of. cbn [mbind result_bind].
  destruct Ht as [Hh Hj]. rewrite Hh, Hj.
  set (rs := stats_of race _ _).
  destruct (IH (remember st race rs) (pre ++ [race]) (l0 ++ [rs]))
    as (st' & Hrun & Hg').
  - by apply tracks_remember.
  - intros k. simpl. rewrite dd_get_append, filter_app, filter_cons, filter_nil.
    change (original rs) with race.
    change (date race, race_index race) with (race_key race).
    case_decide; rewrite Hg; [by subst|]. by rewrite app_nil_r.
  - exists st'. split; [done|]. intros k. rewrite Hg', <- app_assoc. done.
Qed.

Lemma race_group_map_enriched all_races :
  ∃ st, for_loop init_locals (sort_races all_races) = Ok st ∧
    ∀ k, dd_get k (race_group_map st)
         = filter (λ rs, race_key (original rs) = k)
             (replay [] (sort_races all_races)).
Proof.
  destruct (for_loop_groups init_locals [] [] (sort_races all_races))
    as (st & Hrun & Hg).
  - apply tracks_init.
  - intros k'. unfold dd_get. simpl. by rewrite lookup_empty.
  - exists st. split; [done|]. apply Hg.
Qed.

Lemma iteration_creates all_races pre race suf :
  sort_races all_races = pre ++ race :: suf →
  creates_at all_races (length pre)
    (stats_of race (filter (λ x, horse_id x = horse_id race) pre)
       (filter (λ x, jockey x = jockey race) pre)).
Proof.
  intros Hs. eexists. split; [apply enriched_records_replay|].
  rewrite Hs. apply replay_lookup.
Qed.

(** ** The run-count creator *)

(** C2. When the history [H] of the record's horse is not empty, the
    enriched record has [num_races_run = |H|], the top-1/2/3 counts are
    the cumulated numbers of entries of [H] whose [pla] is exactly "01",
    "02", "03", and the three rates are those counts divided by [|H|].
    [H] holds every earlier record of the horse whatever its [pla]; when
    none of them carries one of the three codes, the top-3 count is 0. *)
Theorem run_count_and_placement_stats all_races pre race suf :
  sort_races all_races = pre ++ race :: suf →
  filter (λ x, horse_id x = horse_id race) pre ≠ [] →
  ∃ st race_stats,
    for_loop init_locals pre = Ok st ∧ enrich st race = Ok race_stats ∧
    creates_at all_races (length pre) race_stats ∧
    let H := dd_get (horse_id race) (horse_races_map st) in
    let n := Z.of_nat (length H) in
    let c1 := placed "01" H in
    let c2 := placed "02" H in
    let c3 := placed "03" H in
    H = filter (λ x, horse_id x = horse_id race) pre ∧
    num_races_run race_stats = n ∧
    num_races_top1 race_stats = c1 ∧
    num_races_top2 race_stats = c1 + c2 ∧
    num_races_top3 race_stats = c1 + c2 + c3 ∧
    percent_races_top1 race_stats = FQuot c1 n ∧
    percent_races_top2 race_stats = FQuot (c1 + c2) n ∧
    percent_races_top3 race_stats = FQuot (c1 + c2 + c3) n ∧
    (Forall (λ x, pla x ∉ top3_codes) H → num_races_top3 race_stats = 0).
Proof.
  intros Hs Hne.
  destruct (iteration pre race) as (st & Hrun & [Hh Hj] & Hen).
  exists st; eexists. split; [exact Hrun|]. split; [exact Hen|].
  split; [by eapply iteration_creates|]. cbv zeta. rewrite Hh.
  destruct (filter (λ x, horse_id x = horse_id race) pre) as [|x H] eqn:EH;
    [done|].
  simpl. split_and!; try done.
  intros Hall.
  rewrite !placed_none; [done|..];
    (eapply Forall_impl; [exact Hall|]); intros y Hy Heq; apply Hy;
    rewrite Heq; unfold top3_codes; set_solver.
Qed.

(** C9. The run count never goes down when the history grows by one
    record: for the creator behind the driver's guard, on any history,
    and for two passes of the loop that differ by one more record. *)
Theorem num_races_run_monotone race H x pre :
  (∃ race_stats race_stats',
     run_creators (λ rs, horse_id (original rs)) {[horse_id race := H]}
       [_compute_num_races_run] (new_RaceWithStats race) = Ok race_stats ∧
     run_creators (λ rs, horse_id (original rs)) {[horse_id race := H ++ [x]]}
       [_compute_num_races_run] (new_RaceWithStats race) = Ok race_stats' ∧
     num_races_run race_stats = Z.of_nat (length H) ∧
     num_races_run race_stats' = Z.of_nat (length H) + 1 ∧
     num_races_run race_stats ≤ num_races_run race_stats') ∧
  (∃ st st' race_stats race_stats',
     for_loop init_locals pre = Ok st ∧
     for_loop init_locals (pre ++ [x]) = Ok st' ∧
     enrich st race = Ok race_stats ∧
     enrich st' race = Ok race_stats' ∧
     num_races_run race_stats ≤ num_races_run race_stats' ∧
     (horse_id x = horse_id race →
      num_races_run race_stats' = num_races_run race_stats + 1)).
Proof.
  split.
  - assert (∀ L, ∃ rs,
      run_creators (λ rs, horse_id (original rs)) {[horse_id race := L]}
        [_compute_num_races_run] (new_RaceWithStats race) = Ok rs ∧
      num_races_run rs = Z.of_nat (length L)) as Hone.
    { intros L. destruct L as [|y L].
      - exists (new_RaceWithStats race). split; [|done].
        rewrite run_creators_skip; [done|].
        unfold dd_get. simpl. by rewrite lookup_singleton_eq.
      - eexists. split.
        + erewrite run_creators_call; [apply run_creators_nil|..].
          * unfold dd_get. simpl. by rewrite lookup_singleton_eq.
          * unfold dd_get. simpl. rewrite lookup_singleton_eq. simpl.
            apply _compute_num_races_run_cons.
        + done. }
    destruct (Hone H) as (rs & Hrs & Hn).
    destruct (Hone (H ++ [x])) as (rs' & Hrs' & Hn').
    exists rs, rs'. rewrite length_app in Hn'. simpl in Hn'.
    split_and!; [done|done|done|lia|lia].
  - destruct (iteration pre race) as (st & Hrun & _ & Hen).
    destruct (iteration (pre ++ [x]) race) as (st' & Hrun' & _ & Hen').
    exists st, st'; do 2 eexists.
    split; [exact Hrun|]. split; [exact Hrun'|].
    split; [exact Hen|]. split; [exact Hen'|]. split.
    + simpl. rewrite filter_app, length_app. lia.
    + intros Hx. simpl. rewrite filter_app, length_app, filter_cons_True by done.
      simpl. lia.
Qed.

(** ** Empty histories *)

(** C3. When the horse (the jockey) of a record has no earlier record,
    none of the horse (jockey) creators is called and the variables they
    would set keep their defaults; with both histories empty the record
    is the freshly initialised one. The call as a whole never raises. *)
Theorem empty_history_leaves_defaults all_races pre race suf :
  sort_races all_races = pre ++ race :: suf →
  ∃ st race_stats,
    for_loop init_locals pre = Ok st ∧ enrich st race = Ok race_stats ∧
    creates_at all_races (length pre) race_stats ∧
    let H := dd_get (horse_id race) (horse_races_map st) in
    let J := dd_get (jockey race) (jockey_races_map st) in
    (H = [] →
       (∀ rs, original rs = race →
          run_creators (λ rs, horse_id (original rs)) (horse_races_map st)
            variable_creators rs = Ok rs) ∧
       num_races_run race_stats = 0 ∧
       num_races_top1 race_stats = 0 ∧
       num_races_top2 race_stats = 0 ∧
       num_races_top3 race_stats = 0 ∧
       percent_races_top1 race_stats = FZero ∧
       percent_races_top2 race_stats = FZero ∧
       percent_races_top3 race_stats = FZero ∧
       num_races_run_seasonal race_stats = 0 ∧
       days_since_last_run race_stats = 0 ∧
       days_since_last_run_log race_stats = FZero ∧
       days_since_last_run_sqrt race_stats = FZero) ∧
    (J = [] →
       (∀ rs, original rs = race →
          run_creators (λ rs, jockey (original rs)) (jockey_races_map st)
            jockey_variable_creators rs = Ok rs) ∧
       jokey_num_races_run race_stats = 0) ∧
    (H = [] → J = [] → race_stats = new_RaceWithStats race) ∧
    ¬ raises (compute_derived_variables all_races).
Proof.
  intros Hs.
  destruct (iteration pre race) as (st & Hrun & [Hh Hj] & Hen).
  exists st; eexists. split; [exact Hrun|]. split; [exact Hen|].
  split; [by eapply iteration_creates|]. cbv zeta.
  rewrite Hh, Hj. split_and!.
  - intros E. rewrite E. split_and!; try done.
    intros rs <-. unfold variable_creators.
    rewrite !run_creators_skip, run_creators_nil; by rewrite ?Hh.
  - intros E. rewrite E. split; [|done].
    intros rs <-. unfold jockey_variable_creators.
    rewrite !run_creators_skip, run_creators_nil; by rewrite ?Hj.
  - intros E1 E2. by rewrite E1, E2.
  - unfold compute_derived_variables.
    destruct (for_loop_init (sort_races all_races)) as (st' & -> & _).
    simpl. tauto.
Qed.

(** ** The jockey run count *)

(** C7. [jokey_num_races_run] is computed from [jockey_races_map], which
    is keyed by the jockey: the history [J] read there holds the earlier
    records of the record's jockey, and when it is not empty the variable
    is the number of entries of [J] whose season is the record's season. *)
Theorem jockey_run_count_is_seasonal all_races pre race suf :
  sort_races all_races = pre ++ race :: suf →
  filter (λ x, jockey x = jockey race) pre ≠ [] →
  ∃ st race_stats,
    for_loop init_locals pre = Ok st ∧ enrich st race = Ok race_stats ∧
    creates_at all_races (length pre) race_stats ∧
    let J := dd_get (jockey race) (jockey_races_map st) in
    J = filter (λ x, jockey x = jockey race) pre ∧
    jokey_num_races_run race_stats
    = Z.of_nat (length (filter (λ x, season x = season race) J)).
Proof.
  intros Hs _.
  destruct (iteration pre race) as (st & Hrun & [Hh Hj] & Hen).
  exists st; eexists. split; [exact Hrun|]. split; [exact Hen|].
  split; [by eapply iteration_creates|]. cbv zeta.
  by rewrite Hj.
Qed.

(** ** Days since the last run *)

(** C8. With a non-empty history [H] of the horse, [days_since_last_run]
    is the record's date minus the date of the last entry of [H]; it is
    not negative, the list being processed in the order of the sort; the
    two other variables are [log1p] and [sqrt] of that number. With an
    empty [H] the three variables keep their defaults. *)
Theorem days_since_last_run_stats all_races pre race suf :
  sort_races all_races = pre ++ race :: suf →
  ∃ st race_stats,
    for_loop init_locals pre = Ok st ∧ enrich st race = Ok race_stats ∧
    creates_at all_races (length pre) race_stats ∧
    let H := dd_get (horse_id race) (horse_races_map st) in
    match last H with
    | Some prev =>
        days_since_last_run race_stats = date race - date prev ∧
        0 ≤ days_since_last_run race_stats ∧
        days_since_last_run_log race_stats
        = FLog1p (days_since_last_run race_stats) ∧
        days_since_last_run_sqrt race_stats
        = FSqrt (days_since_last_run race_stats)
    | None =>
        H = [] ∧
        days_since_last_run race_stats = 0 ∧
        days_since_last_run_log race_stats = FZero ∧
        days_since_last_run_sqrt race_stats = FZero
    end.
Proof.
  intros Hs.
  destruct (iteration pre race) as (st & Hrun & [Hh Hj] & Hen).
  exists st; eexists. split; [exact Hrun|]. split; [exact Hen|].
  split; [by eapply iteration_creates|]. cbv zeta.
  rewrite Hh. simpl.
  destruct (last (filter (λ x, horse_id x = horse_id race) pre))
    as [prev|] eqn:EL.
  - split_and!; try done.
    apply last_Some_elem_of, list_elem_of_filter in EL as [_ Hin].
    pose proof (race_le_date _ _ (sorted_prefix_le _ _ _ _ _ Hs Hin)). lia.
  - by apply last_None in EL.
Qed.

(** ** What the call returns and what it does to its argument *)

(** C10. The caller's list is sorted in place: after the call it is in
    ascending order of [(date, race_index)], it holds the same records as
    before, and records with equal keys keep their relative order. *)
Theorem sorts_caller_list_in_place all_races :
  ∃ caller_list enhanced,
    compute_derived_variables all_races = Ok (caller_list, enhanced) ∧
    StronglySorted race_le caller_list ∧
    caller_list ≡ₚ all_races ∧
    ∀ k, filter (λ x, race_key x = k) caller_list
         = filter (λ x, race_key x = k) all_races.
Proof.
  unfold compute_derived_variables.
  destruct (for_loop_init (sort_races all_races)) as (st & -> & _ & _).
  do 2 eexists. split; [reflexivity|].
  split_and!.
  - apply sort_races_sorted.
  - apply sort_races_Permutation.
  - intros k. apply sort_races_stable.
Qed.

(** The list that is returned is the one created empty before the loop:
    nothing is ever appended to it. *)
Lemma compute_derived_variables_returns_nil all_races :
  compute_derived_variables all_races = Ok (sort_races all_races, []).
Proof.
  unfold compute_derived_variables.
  destruct (for_loop_init (sort_races all_races)) as (st & -> & _ & He).
  simpl. by rewrite He.
Qed.

(** ** No look-ahead *)

(** C4. The iteration for a record reads the histories first and appends
    the record to them afterwards: the histories it reads are the
    records of the same horse and of the same jockey sorted before it,
    and the record joins both only in the state the iteration leaves.
    The derived variables of the record are the same in any other call
    where the same records are sorted before it and the record has the
    same horse, jockey, date and season, whatever its finishing position
    and its other attributes, and whatever is sorted after it. *)
Theorem no_lookahead all_races all_races' pre race race' suf suf' :
  sort_races all_races = pre ++ race :: suf →
  sort_races all_races' = pre ++ race' :: suf' →
  horse_id race' = horse_id race →
  jockey race' = jockey race →
  date race' = date race →
  season race' = season race →
  ∃ st st_after race_stats race_stats' enriched enriched',
    for_loop init_locals pre = Ok st ∧
    enrich st race = Ok race_stats ∧
    dd_get (horse_id race) (horse_races_map st)
    = filter (λ x, horse_id x = horse_id race) pre ∧
    dd_get (jockey race) (jockey_races_map st)
    = filter (λ x, jockey x = jockey race) pre ∧
    loop_body st race = Ok st_after ∧
    dd_get (horse_id race) (horse_races_map st_after)
    = dd_get (horse_id race) (horse_races_map st) ++ [race] ∧
    dd_get (jockey race) (jockey_races_map st_after)
    = dd_get (jockey race) (jockey_races_map st) ++ [race] ∧
    enriched_records all_races = Ok enriched ∧
    enriched !! length pre = Some race_stats ∧
    enriched_records all_races' = Ok enriched' ∧
    enriched' !! length pre = Some race_stats' ∧
    derived race_stats' = derived race_stats.
Proof.
  intros Hs Hs' Eh Ej Ed Es.
  destruct (iteration pre race) as (st & Hrun & [Hh Hj] & Hen).
  exists st, (remember st race
    (stats_of race (filter (λ x, horse_id x = horse_id race) pre)
       (filter (λ x, jockey x = jockey race) pre))).
  do 4 eexists.
  split; [exact Hrun|]. split; [exact Hen|].
  split; [apply Hh|]. split; [apply Hj|].
  split; [unfold loop_body; by rewrite Hen|].
  split; [simpl; by rewrite dd_get_append, decide_True|].
  split; [simpl; by rewrite dd_get_append, decide_True|].
  split; [apply enriched_records_replay|].
  split; [rewrite Hs; apply replay_lookup|].
  split; [apply enriched_records_replay|].
  split; [rewrite Hs'; apply replay_lookup|].
  simpl. unfold derived. simpl. by rewrite Eh, Ej, Ed, Es.
Qed.

(** ** Independence of the input order *)

Lemma filter_all {A} (P : A → Prop) `{∀ x, Decision (P x)} (l : list A) :
  Forall P l → filter P l = l.
Proof.
  induction 1 as [|x l Hx _ IH]; [done|].
  by rewrite filter_cons_True, IH.
Qed.

Lemma filter_none {A} (P : A → Prop) `{∀ x, Decision (P x)} (l : list A) :
  Forall (λ x, ¬ P x) l → filter P l = [].
Proof.
  induction 1 as [|x l Hx _ IH]; [done|].
  by rewrite filter_cons_False.
Qed.

Lemma StronglySorted_race_le_filter (P : Race → Prop) `{∀ x, Decision (P x)} l :
  StronglySorted race_le l → StronglySorted race_le (filter P l).
Proof.
  induction 1 as [|x l Hl IH Hx]; [constructor|].
  rewrite filter_cons. case_decide; [|done].
  constructor; [done|].
  rewrite Forall_forall in Hx. apply Forall_forall.
  intros y [_ Hy]%list_elem_of_filter. by apply Hx.
Qed.

Lemma sorted_distinct_keys_strict l :
  StronglySorted race_le l → NoDup (race_key <$> l) → StronglySorted race_lt l.
Proof.
  induction 1 as [|x l Hl IH Hx]; [constructor|].
  rewrite fmap_cons, NoDup_cons. intros [Hnot Hnd].
  constructor; [by apply IH|].
  rewrite Forall_forall in Hx. apply Forall_forall. intros y Hy.
  destruct (race_le_lt_or_eq _ _ (Hx y Hy)) as [?|Heq]; [done|].
  exfalso. apply Hnot. rewrite Heq. apply list_elem_of_fmap. by exists y.
Qed.

Lemma strictly_sorted_unique l1 l2 :
  StronglySorted race_lt l1 → StronglySorted race_lt l2 → l1 ≡ₚ l2 → l1 = l2.
Proof.
  apply StronglySorted_unique_strong.
  intros x y _ _ Hxy Hyx. exfalso.
  unfold race_lt, key_lt in *. lia.
Qed.

Section per_field.
(** [f] is [horse_id] or [jockey]. *)
Variable f : Race → string.

Lemma pairs_keys_apart l :
  ForallOrdPairs (λ x y, race_key x = race_key y → f x ≠ f y) l →
  keys_apart f l.
Proof.
  induction 1 as [|x l Hx _ IH]; intros v; [constructor|].
  rewrite filter_cons. case_decide as Hv; [|apply IH].
  rewrite fmap_cons, NoDup_cons. split; [|apply IH].
  intros (y & Hk & [Hfy Hy]%list_elem_of_filter)%list_elem_of_fmap.
  rewrite Forall_forall in Hx. apply (Hx y); [done|done|congruence].
Qed.

Lemma keys_apart_Permutation l l' :
  l ≡ₚ l' → keys_apart f l → keys_apart f l'.
Proof. intros Hp Hl v. rewrite <- Hp. apply Hl. Qed.

Lemma filter_sort_unique l l' v :
  l ≡ₚ l' → keys_apart f l →
  filter (λ x, f x = v) (sort_races l)
  = filter (λ x, f x = v) (sort_races l').
Proof.
  intros Hp Hl. apply strictly_sorted_unique.
  - apply sorted_distinct_keys_strict.
    + apply StronglySorted_race_le_filter, sort_races_sorted.
    + rewrite sort_races_Permutation. apply Hl.
  - apply sorted_distinct_keys_strict.
    + apply StronglySorted_race_le_filter, sort_races_sorted.
    + rewrite sort_races_Permutation, <- Hp. apply Hl.
  - by rewrite !sort_races_Permutation, Hp.
Qed.

(** In a sorted list, the records with the value of [race] that come
    before [race] are those that are strictly earlier. *)
Lemma history_is_strictly_earlier pre race suf :
  StronglySorted race_le (pre ++ race :: suf) →
  keys_apart f (pre ++ race :: suf) →
  filter (λ x, f x = f race) pre
  = filter (λ x, race_lt x race)
      (filter (λ x, f x = f race) (pre ++ race :: suf)).
Proof.
  intros Hs Hk. specialize (Hk (f race)).
  rewrite filter_app, filter_cons_True in Hk |- * by done.
  rewrite fmap_app, fmap_cons in Hk.
  apply NoDup_app in Hk as (_ & Hpre & _).
  rewrite filter_app, filter_cons_False by apply race_lt_irrefl.
  apply StronglySorted_app in Hs as (Hle & _ & Hs).
  apply StronglySorted_inv in Hs as [_ Hs].
  rewrite (filter_none (λ x, race_lt x race) (filter _ suf)),
    (filter_all (λ x, race_lt x race) (filter _ pre)), ?app_nil_r;
    [done|..].
  - apply Forall_forall. intros y Hy'.
    destruct (race_le_lt_or_eq y race) as [?|Heq]; [|done|].
    + apply list_elem_of_filter in Hy' as [_ Hy']. apply Hle; [done|by left].
    + exfalso. apply (Hpre (race_key y)).
      * apply list_elem_of_fmap. by exists y.
      * rewrite Heq. by left.
  - rewrite Forall_forall in Hs. apply Forall_forall.
    intros y [_ Hy]%list_elem_of_filter Hlt.
    apply (race_lt_irrefl race). eapply race_le_lt_trans; [|done].
    by apply Hs.
Qed.
End per_field.

Lemma ForallOrdPairs_weaken {A} (R R' : A → A → Prop) l :
  (∀ x y, R x y → R' x y) → ForallOrdPairs R l → ForallOrdPairs R' l.
Proof.
  intros HR. induction 1 as [|x l Hx _ IH]; constructor; [|done].
  eapply Forall_impl; [exact Hx|]. apply HR.
Qed.

Lemma tie_free_keys_apart l :
  tie_free l → keys_apart horse_id l ∧ keys_apart jockey l.
Proof.
  intros Ht. split; apply pairs_keys_apart;
    (eapply ForallOrdPairs_weaken; [|exact Ht]);
    intros x y Hxy Hk; by destruct (Hxy Hk).
Qed.

Lemma replay_view pre suf :
  StronglySorted race_le (pre ++ suf) →
  keys_apart horse_id (pre ++ suf) →
  keys_apart jockey (pre ++ suf) →
  replay pre suf = view (pre ++ suf) <$> suf.
Proof.
  revert pre. induction suf as [|race suf IH]; intros pre Hs Hh Hj; [done|].
  simpl. f_equal.
  - unfold view.
    by rewrite <- (history_is_strictly_earlier horse_id),
      <- (history_is_strictly_earlier jockey).
  - replace (pre ++ race :: suf) with ((pre ++ [race]) ++ suf) in *
      by by rewrite <- app_assoc.
    by apply IH.
Qed.

Lemma view_sort_unique l l' race :
  l ≡ₚ l' → keys_apart horse_id l → keys_apart jockey l →
  view (sort_races l) race = view (sort_races l') race.
Proof.
  intros Hp Hh Hj. unfold view.
  by rewrite (filter_sort_unique horse_id l l'),
    (filter_sort_unique jockey l l').
Qed.

(** ** Records of the same race *)

(** When no two records of one race share a horse or a jockey, every
    entry of the histories read for a record is strictly earlier than
    the record. *)
Lemma tie_free_strict_histories all_races pre race suf st :
  tie_free all_races →
  sort_races all_races = pre ++ race :: suf →
  for_loop init_locals pre = Ok st →
  ∀ z, z ∈ dd_get (horse_id race) (horse_races_map st)
       ∨ z ∈ dd_get (jockey race) (jockey_races_map st) →
       race_lt z race.
Proof.
  intros [Hh Hj]%tie_free_keys_apart Hs Hrun.
  destruct (for_loop_init pre) as (st' & Hrun' & [Hth Htj] & _).
  rewrite Hrun in Hrun'. injection Hrun' as <-.
  pose proof (sort_races_sorted all_races) as Hsorted.
  assert (keys_apart horse_id (pre ++ race :: suf)) as Hh'.
  { rewrite <- Hs. eapply keys_apart_Permutation; [|exact Hh].
    symmetry. apply sort_races_Permutation. }
  assert (keys_apart jockey (pre ++ race :: suf)) as Hj'.
  { rewrite <- Hs. eapply keys_apart_Permutation; [|exact Hj].
    symmetry. apply sort_races_Permutation. }
  rewrite Hs in Hsorted. intros z. rewrite Hth, Htj.
  rewrite (history_is_strictly_earlier horse_id pre race suf Hsorted Hh').
  rewrite (history_is_strictly_earlier jockey pre race suf Hsorted Hj').
  intros [Hz|Hz]; by apply list_elem_of_filter in Hz as [? _].
Qed.

(** C5, as the code has it. In an input where no two records of one
    race share a horse id or a jockey id, every record is enriched from
    histories whose entries are all strictly earlier in
    [(date, race_index)]; so for two records [x], [y] of one race, [x]
    sorted first, both are enriched from strictly earlier records only
    and neither is in a history read for the other. *)
Theorem simultaneous_records_apart all_races pre x mid y suf :
  tie_free all_races →
  sort_races all_races = pre ++ x :: mid ++ y :: suf →
  race_key x = race_key y →
  histories_strictly_earlier all_races ∧
  ∃ stx sty,
    for_loop init_locals pre = Ok stx ∧
    for_loop init_locals (pre ++ x :: mid) = Ok sty ∧
    (∀ z, z ∈ dd_get (horse_id x) (horse_races_map stx)
          ∨ z ∈ dd_get (jockey x) (jockey_races_map stx) → race_lt z x) ∧
    (∀ z, z ∈ dd_get (horse_id y) (horse_races_map sty)
          ∨ z ∈ dd_get (jockey y) (jockey_races_map sty) → race_lt z y) ∧
    (y ∉ dd_get (horse_id x) (horse_races_map stx)) ∧
    (y ∉ dd_get (jockey x) (jockey_races_map stx)) ∧
    (x ∉ dd_get (horse_id y) (horse_races_map sty)) ∧
    (x ∉ dd_get (jockey y) (jockey_races_map sty)).
Proof.
  intros Ht Hs Hk.
  assert (sort_races all_races = (pre ++ x :: mid) ++ y :: suf) as Hs'.
  { by rewrite <- app_assoc. }
  split.
  { intros pre' race suf' st Hd Hrun. by eapply tie_free_strict_histories. }
  destruct (for_loop_init pre) as (stx & Hrx & _ & _).
  destruct (for_loop_init (pre ++ x :: mid)) as (sty & Hry & _ & _).
  pose proof (tie_free_strict_histories _ _ _ _ _ Ht Hs Hrx) as Hx.
  pose proof (tie_free_strict_histories _ _ _ _ _ Ht Hs' Hry) as Hy.
  assert (¬ race_lt y x) as Hyx.
  { intros Hlt. by apply race_lt_key_ne in Hlt. }
  assert (¬ race_lt x y) as Hxy.
  { intros Hlt. by apply race_lt_key_ne in Hlt. }
  exists stx, sty. split; [exact Hrx|]. split; [exact Hry|].
  split; [exact Hx|]. split; [exact Hy|].
  split; [intros Hin; apply Hyx, Hx; by left|].
  split; [intros Hin; apply Hyx, Hx; by right|].
  split; [intros Hin; apply Hxy, Hy; by left|].
  intros Hin. apply Hxy, Hy. by right.
Qed.

Lemma replay_order_independent all_races all_races' :
  all_races ≡ₚ all_races' →
  tie_free all_races →
  replay [] (sort_races all_races) ≡ₚ replay [] (sort_races all_races').
Proof.
  intros Hp [Hh Hj]%tie_free_keys_apart.
  rewrite (replay_view [] (sort_races all_races)),
    (replay_view [] (sort_races all_races')); simpl.
  - assert (view (sort_races all_races) <$> sort_races all_races
            = view (sort_races all_races') <$> sort_races all_races) as ->.
    { apply list_fmap_ext. intros _ race _. by apply view_sort_unique. }
    apply fmap_Permutation. by rewrite !sort_races_Permutation.
  - apply sort_races_sorted.
  - eapply keys_apart_Permutation; [|exact Hh].
    by rewrite sort_races_Permutation.
  - eapply keys_apart_Permutation; [|exact Hj].
    by rewrite sort_races_Permutation.
  - apply sort_races_sorted.
  - eapply keys_apart_Permutation; [|exact Hh].
    symmetry. apply sort_races_Permutation.
  - eapply keys_apart_Permutation; [|exact Hj].
    symmetry. apply sort_races_Permutation.
Qed.

(** C6, as the code has it. When no two records of the same race share
    a horse or a jockey, the records created for a list and for any
    rearrangement of it are the same up to their order, derived variables
    included; so are, race by race, the groups left in [race_group_map]. *)
Theorem order_independent_when_tie_free all_races all_races' :
  all_races ≡ₚ all_races' →
  tie_free all_races →
  ∃ st st' enriched enriched',
    for_loop init_locals (sort_races all_races) = Ok st ∧
    for_loop init_locals (sort_races all_races') = Ok st' ∧
    enriched_records all_races = Ok enriched ∧
    enriched_records all_races' = Ok enriched' ∧
    enriched ≡ₚ enriched' ∧
    ∀ k, dd_get k (race_group_map st) ≡ₚ dd_get k (race_group_map st').
Proof.
  intros Hp Ht.
  pose proof (replay_order_independent _ _ Hp Ht) as Hr.
  destruct (race_group_map_enriched all_races) as (st & Hrun & Hg).
  destruct (race_group_map_enriched all_races') as (st' & Hrun' & Hg').
  exists st, st'. do 2 eexists.
  split; [exact Hrun|]. split; [exact Hrun'|].
  split; [apply enriched_records_replay|].
  split; [apply enriched_records_replay|].
  split; [exact Hr|].
  intros k. by rewrite Hg, Hg', Hr.
Qed.

(** ** Concrete runs *)

(** C1. On a list of one record the call returns the empty list, while
    the loop did create the enriched record of that record. *)
Lemma returns_no_enriched_record :
  compute_derived_variables [ex_first] = Ok ([ex_first], []) ∧
  enriched_records [ex_first] = Ok [new_RaceWithStats ex_first] ∧
  length ([] : list RaceWithStats) ≠ length [ex_first].
Proof.
  split; [apply compute_derived_variables_returns_nil|].
  split; [apply enriched_records_replay|done].
Qed.

(** Horse A, one earlier run that it won: one run, one win, rate 1/1. *)
Lemma run_count_and_placement_stats_witness :
  sort_races [ex_later; ex_first] = [ex_first] ++ ex_later :: [] ∧
  filter (λ x, horse_id x = horse_id ex_later) [ex_first] ≠ [] ∧
  ∃ st race_stats,
    for_loop init_locals [ex_first] = Ok st ∧
    enrich st ex_later = Ok race_stats ∧
    num_races_run race_stats = 1 ∧
    num_races_top1 race_stats = 1 ∧
    percent_races_top1 race_stats = FQuot 1 1.
Proof.
  assert (sort_races [ex_later; ex_first] = [ex_first] ++ ex_later :: [])
    as Hs by reflexivity.
  assert (filter (λ x, horse_id x = horse_id ex_later) [ex_first] ≠ [])
    as Hne by (vm_compute; discriminate).
  split; [exact Hs|]. split; [exact Hne|].
  destruct (run_count_and_placement_stats _ _ _ _ Hs Hne)
    as (st & rs & Hrun & Hen & _ & HH & Hn & H1 & _ & _ & Hp1 & _).
  exists st, rs. rewrite HH in Hn, H1, Hp1.
  split; [exact Hrun|]. split; [exact Hen|].
  split; [exact Hn|]. split; [exact H1|exact Hp1].
Defined.

(** The first record of a call keeps every default. *)
Lemma empty_history_leaves_defaults_witness :
  sort_races [ex_first] = [] ++ ex_first :: [] ∧
  ∃ st race_stats,
    for_loop init_locals [] = Ok st ∧
    enrich st ex_first = Ok race_stats ∧
    race_stats = new_RaceWithStats ex_first.
Proof.
  assert (sort_races [ex_first] = [] ++ ex_first :: []) as Hs by reflexivity.
  split; [exact Hs|].
  destruct (empty_history_leaves_defaults _ _ _ _ Hs)
    as (st & rs & Hrun & Hen & _ & _ & _ & Hboth & _).
  exists st, rs. split; [exact Hrun|]. split; [exact Hen|].
  injection Hrun as <-. by apply Hboth.
Defined.

(** The second run of horse A gets the same derived variables whether it
    ends third or is withdrawn, and whether or not a third run follows. *)
Lemma no_lookahead_witness :
  sort_races [ex_later; ex_first] = [ex_first] ++ ex_later :: [] ∧
  sort_races [ex_last; ex_later_withdrawn; ex_first]
  = [ex_first] ++ ex_later_withdrawn :: [ex_last] ∧
  ∃ enriched enriched' race_stats race_stats',
    enriched_records [ex_later; ex_first] = Ok enriched ∧
    enriched !! 1%nat = Some race_stats ∧
    enriched_records [ex_last; ex_later_withdrawn; ex_first] = Ok enriched' ∧
    enriched' !! 1%nat = Some race_stats' ∧
    derived race_stats' = derived race_stats.
Proof.
  assert (sort_races [ex_later; ex_first] = [ex_first] ++ ex_later :: [])
    as Hs by reflexivity.
  assert (sort_races [ex_last; ex_later_withdrawn; ex_first]
          = [ex_first] ++ ex_later_withdrawn :: [ex_last])
    as Hs' by reflexivity.
  split; [exact Hs|]. split; [exact Hs'|].
  destruct (no_lookahead _ _ _ _ _ _ _ Hs Hs' eq_refl eq_refl eq_refl eq_refl)
    as (st & st' & rs & rs' & e & e' & _ & _ & _ & _ & _ & _ & _
        & He & Hl & He' & Hl' & Hd).
  exists e, e', rs, rs'. split; [exact He|]. split; [exact Hl|].
  split; [exact He'|]. split; [exact Hl'|exact Hd].
Defined.

(** Jockey J has ridden once before in the season. *)
Lemma jockey_run_count_is_seasonal_witness :
  sort_races [ex_first; ex_same_jockey] = [ex_first] ++ ex_same_jockey :: [] ∧
  filter (λ x, jockey x = jockey ex_same_jockey) [ex_first] ≠ [] ∧
  ∃ st race_stats,
    for_loop init_locals [ex_first] = Ok st ∧
    enrich st ex_same_jockey = Ok race_stats ∧
    jokey_num_races_run race_stats = 1.
Proof.
  assert (sort_races [ex_first; ex_same_jockey]
          = [ex_first] ++ ex_same_jockey :: []) as Hs by reflexivity.
  assert (filter (λ x, jockey x = jockey ex_same_jockey) [ex_first] ≠ [])
    as Hne by (vm_compute; discriminate).
  split; [exact Hs|]. split; [exact Hne|].
  destruct (jockey_run_count_is_seasonal _ _ _ _ Hs Hne)
    as (st & rs & Hrun & Hen & _ & HJ & Hn).
  exists st, rs. rewrite HJ in Hn.
  split; [exact Hrun|]. split; [exact Hen|exact Hn].
Defined.

(** Horse A ran on day 10 and runs again on day 20. *)
Lemma days_since_last_run_stats_witness :
  sort_races [ex_later; ex_first] = [ex_first] ++ ex_later :: [] ∧
  ∃ st race_stats,
    for_loop init_locals [ex_first] = Ok st ∧
    enrich st ex_later = Ok race_stats ∧
    days_since_last_run race_stats = 10 ∧
    days_since_last_run_log race_stats = FLog1p 10 ∧
    days_since_last_run_sqrt race_stats = FSqrt 10.
Proof.
  assert (sort_races [ex_later; ex_first] = [ex_first] ++ ex_later :: [])
    as Hs by reflexivity.
  split; [exact Hs|].
  destruct (days_since_last_run_stats _ _ _ _ Hs)
    as (st & rs & Hrun & Hen & _ & Hd).
  exists st, rs. split; [exact Hrun|]. split; [exact Hen|].
  injection Hrun as <-. vm_compute in Hd.
  destruct Hd as (Hd & _ & Hlog & Hsq). rewrite Hd in Hlog, Hsq.
  split; [exact Hd|]. split; [exact Hlog|exact Hsq].
Defined.

(** C5, as stated, fails: with two records of one race under one jockey
    id, the first is in the jockey history read for the second. *)
Lemma histories_strictly_earlier_fails :
  ¬ histories_strictly_earlier [ex_first; ex_same_jockey].
Proof.
  intros Hc.
  destruct (for_loop_init [ex_first]) as (st & Hrun & [_ Hj] & _).
  assert (race_lt ex_first ex_same_jockey) as Hlt.
  { apply (Hc [ex_first] ex_same_jockey [] st eq_refl Hrun).
    right. rewrite Hj. vm_compute. left. }
  unfold race_lt, key_lt in Hlt. simpl in Hlt. lia.
Qed.

(** Two runners of one race, with different horses and jockeys. *)
Lemma simultaneous_records_apart_witness :
  tie_free [ex_first; ex_other] ∧
  sort_races [ex_first; ex_other] = [] ++ ex_first :: [] ++ ex_other :: [] ∧
  race_key ex_first = race_key ex_other ∧
  histories_strictly_earlier [ex_first; ex_other] ∧
  ∃ stx sty,
    for_loop init_locals [] = Ok stx ∧
    for_loop init_locals [ex_first] = Ok sty ∧
    (ex_first ∉ dd_get (horse_id ex_other) (horse_races_map sty)) ∧
    (ex_first ∉ dd_get (jockey ex_other) (jockey_races_map sty)).
Proof.
  assert (tie_free [ex_first; ex_other]) as Ht.
  { repeat constructor; discriminate. }
  assert (sort_races [ex_first; ex_other]
          = [] ++ ex_first :: [] ++ ex_other :: []) as Hs by reflexivity.
  assert (race_key ex_first = race_key ex_other) as Hk by reflexivity.
  split; [exact Ht|]. split; [exact Hs|]. split; [exact Hk|].
  destruct (simultaneous_records_apart _ _ _ _ _ _ Ht Hs Hk)
    as (Hstrict & stx & sty & Hrx & Hry & _ & _ & _ & _ & Hx1 & Hx2).
  split; [exact Hstrict|].
  exists stx, sty. split; [exact Hrx|]. split; [exact Hry|].
  split; [exact Hx1|exact Hx2].
Defined.

(** C6, as stated, fails: two records of one race under one jockey id
    get their jockey counts in the order of the input. *)
Lemma order_independent_fails :
  [ex_first; ex_same_jockey] ≡ₚ [ex_same_jockey; ex_first] ∧
  ¬ order_independent [ex_first; ex_same_jockey] [ex_same_jockey; ex_first] ∧
  ∃ st st',
    for_loop init_locals (sort_races [ex_first; ex_same_jockey]) = Ok st ∧
    for_loop init_locals (sort_races [ex_same_jockey; ex_first]) = Ok st' ∧
    dd_get (10, 1) (race_group_map st)
    = [stats_of ex_first [] []; stats_of ex_same_jockey [] [ex_first]] ∧
    dd_get (10, 1) (race_group_map st')
    = [stats_of ex_same_jockey [] []; stats_of ex_first [] [ex_same_jockey]] ∧
    jokey_num_races_run (stats_of ex_first [] []) = 0 ∧
    jokey_num_races_run (stats_of ex_first [] [ex_same_jockey]) = 1 ∧
    ¬ (dd_get (10, 1) (race_group_map st)
       ≡ₚ dd_get (10, 1) (race_group_map st')).
Proof.
  assert (¬ (replay [] (sort_races [ex_first; ex_same_jockey])
             ≡ₚ replay [] (sort_races [ex_same_jockey; ex_first]))) as Hne.
  { intros Hc.
    assert (stats_of ex_first [] []
            ∈ replay [] (sort_races [ex_same_jockey; ex_first])) as Hin.
    { rewrite <- Hc. left. }
    vm_compute in Hin.
    apply elem_of_cons in Hin as [Hin|Hin]; [discriminate|].
    apply elem_of_cons in Hin as [Hin|Hin]; [discriminate|].
    by apply elem_of_nil in Hin. }
  split; [apply Permutation_swap|]. split.
  - intros Hc. apply Hne.
    apply Hc; apply enriched_records_replay.
  - destruct (race_group_map_enriched [ex_first; ex_same_jockey])
      as (st & Hrun & Hg).
    destruct (race_group_map_enriched [ex_same_jockey; ex_first])
      as (st' & Hrun' & Hg').
    exists st, st'. rewrite Hg, Hg'.
    split; [exact Hrun|]. split; [exact Hrun'|].
    split; [reflexivity|]. split; [reflexivity|].
    split; [reflexivity|]. split; [reflexivity|].
    exact Hne.
Qed.

(** The same two runners, given in either order. *)
Lemma order_independent_when_tie_free_witness :
  [ex_first; ex_other] ≡ₚ [ex_other; ex_first] ∧
  tie_free [ex_first; ex_other] ∧
  ∃ enriched enriched',
    enriched_records [ex_first; ex_other] = Ok enriched ∧
    enriched_records [ex_other; ex_first] = Ok enriched' ∧
    enriched ≡ₚ enriched'.
Proof.
  assert ([ex_first; ex_other] ≡ₚ [ex_other; ex_first]) as Hp
    by apply Permutation_swap.
  assert (tie_free [ex_first; ex_other]) as Ht.
  { repeat constructor; discriminate. }
  split; [exact Hp|]. split; [exact Ht|].
  destruct (order_independent_when_tie_free _ _ Hp Ht)
    as (_ & _ & e & e' & _ & _ & He & He' & Hperm & _).
  exists e, e'. split; [exact He|]. split; [exact He'|exact Hperm].
Defined.

(** * Further properties of the pass *)

(** ** Which record an iteration creates *)

Lemma replay_length pre s : length (replay pre s) = length s.
Proof.
  revert pre. induction s as [|race s IH]; intros pre; simpl; [done|].
  by rewrite IH.
Qed.

Lemma replay_original pre s : original <$> replay pre s = s.
Proof.
  revert pre. induction s as [|race s IH]; intros pre; simpl; [done|].
  by rewrite IH.
Qed.

Lemma replay_lookup_inv pre s i race_stats :
  replay pre s !! i = Some race_stats →
  ∃ s1 race s2,
    s = s1 ++ race :: s2 ∧ length s1 = i ∧
    race_stats
    = stats_of race (filter (λ x, horse_id x = horse_id race) (pre ++ s1))
        (filter (λ x, jockey x = jockey race) (pre ++ s1)).
Proof.
  intros Hl. pose proof (lookup_lt_Some _ _ _ Hl) as Hlt.
  rewrite replay_length in Hlt.
  destruct (lookup_lt_is_Some_2 s i Hlt) as [race Hrace].
  exists (take i s), race, (drop (S i) s).
  assert (length (take i s) = i) as Hlen by (rewrite length_take; lia).
  split; [by rewrite take_drop_middle|]. split; [done|].
  rewrite <- (take_drop_middle s i race Hrace) in Hl at 1.
  rewrite <- Hlen in Hl at 1. rewrite replay_lookup in Hl. congruence.
Qed.

Lemma creates_at_inv all_races i race_stats :
  creates_at all_races i race_stats →
  ∃ pre race suf,
    sort_races all_races = pre ++ race :: suf ∧ length pre = i ∧
    race_stats
    = stats_of race (filter (λ x, horse_id x = horse_id race) pre)
        (filter (λ x, jockey x = jockey race) pre).
Proof.
  intros (enriched & He & Hl).
  rewrite enriched_records_replay in He. injection He as <-.
  by apply replay_lookup_inv in Hl.
Qed.

Lemma placed_nonneg code H : 0 ≤ placed code H.
Proof. unfold placed. lia. Qed.

Lemma placed_top3_le H :
  placed "01" H + placed "02" H + placed "03" H ≤ Z.of_nat (length H).
Proof.
  unfold placed. induction H as [|x H IH]; [done|].
  rewrite !filter_cons. simpl length.
  repeat case_decide; simpl length; try lia; congruence.
Qed.

Lemma count_season_bounds s H : 0 ≤ count_season s H ≤ Z.of_nat (length H).
Proof.
  unfold count_season. pose proof (length_filter (λ race, season race = s) H).
  lia.
Qed.

(** ** The seasonal run count *)

(** X1. [num_races_run_seasonal] of a record is the number of records of
    the same horse and the same season that are sorted before it; it is
    0 for the first record of a horse, where the creator is skipped. *)
Theorem seasonal_run_count all_races pre race suf :
  sort_races all_races = pre ++ race :: suf →
  ∃ race_stats,
    creates_at all_races (length pre) race_stats ∧
    num_races_run_seasonal race_stats
    = Z.of_nat (length (filter
        (λ x, horse_id x = horse_id race ∧ season x = season race) pre)).
Proof.
  intros Hs. eexists. split; [by eapply iteration_creates|].
  simpl. unfold count_season. rewrite list_filter_filter. do 2 f_equal.
  apply list_filter_iff. intros x. tauto.
Qed.

(** ** Invariants of the created records *)

(** X2. In every record the loop creates the counts are ordered,
    [0 ≤ top1 ≤ top2 ≤ top3 ≤ num_races_run], the seasonal count lies
    between 0 and [num_races_run], and neither [num_races_run] nor the
    jockey count exceeds the number of records processed before. *)
Theorem created_counts_ordered all_races i race_stats :
  creates_at all_races i race_stats →
  0 ≤ num_races_top1 race_stats ∧
  num_races_top1 race_stats ≤ num_races_top2 race_stats ∧
  num_races_top2 race_stats ≤ num_races_top3 race_stats ∧
  num_races_top3 race_stats ≤ num_races_run race_stats ∧
  0 ≤ num_races_run_seasonal race_stats ∧
  num_races_run_seasonal race_stats ≤ num_races_run race_stats ∧
  num_races_run race_stats ≤ Z.of_nat i ∧
  0 ≤ jokey_num_races_run race_stats ∧
  jokey_num_races_run race_stats ≤ Z.of_nat i.
Proof.
  intros (pre & race & suf & _ & <- & ->)%creates_at_inv.
  unfold stats_of.
  cbn [num_races_top1 num_races_top2 num_races_top3 num_races_run
       num_races_run_seasonal jokey_num_races_run].
  pose proof (length_filter (λ x, horse_id x = horse_id race) pre).
  pose proof (length_filter (λ x, jockey x = jockey race) pre).
  generalize dependent (filter (λ x, horse_id x = horse_id race) pre).
  generalize dependent (filter (λ x, jockey x = jockey race) pre).
  intros J HJ H HH.
  pose proof (placed_nonneg "01" H). pose proof (placed_nonneg "02" H).
  pose proof (placed_nonneg "03" H). pose proof (placed_top3_le H).
  pose proof (count_season_bounds (season race) H).
  pose proof (count_season_bounds (season race) J).
  lia.
Qed.

(** X3. The three rates of a created record are its own counts divided by
    its own [num_races_run] whenever that is not 0; when it is 0, every
    variable set by the creators of the horse has its default. *)
Theorem created_rates_consistent all_races i race_stats :
  creates_at all_races i race_stats →
  (num_races_run race_stats ≠ 0 →
     percent_races_top1 race_stats
     = FQuot (num_races_top1 race_stats) (num_races_run race_stats) ∧
     percent_races_top2 race_stats
     = FQuot (num_races_top2 race_stats) (num_races_run race_stats) ∧
     percent_races_top3 race_stats
     = FQuot (num_races_top3 race_stats) (num_races_run race_stats)) ∧
  (num_races_run race_stats = 0 →
     horse_derived race_stats
     = horse_derived (new_RaceWithStats (original race_stats))).
Proof.
  intros (pre & race & suf & _ & <- & ->)%creates_at_inv. simpl.
  destruct (filter (λ x, horse_id x = horse_id race) pre) as [|x H]; simpl.
  - split; [done|]. intros _. reflexivity.
  - split; [done|]. lia.
Qed.

(** X4. The loop creates one record per input record, in the order of
    the sort, each holding the attributes of its input record unchanged:
    what is missing from the returned list is there. *)
Theorem one_created_record_per_input all_races :
  ∃ enriched,
    enriched_records all_races = Ok enriched ∧
    original <$> enriched = sort_races all_races ∧
    length enriched = length all_races ∧
    original <$> enriched ≡ₚ all_races.
Proof.
  eexists. split; [apply enriched_records_replay|].
  rewrite replay_original, replay_length.
  split; [done|]. split.
  - by rewrite sort_races_Permutation.
  - apply sort_races_Permutation.
Qed.

(** ** What the loop leaves in its maps *)

Lemma original_filter_key k (l : list RaceWithStats) :
  original <$> filter (λ rs, race_key (original rs) = k) l
  = filter (λ x, race_key x = k) (original <$> l).
Proof.
  induction l as [|x l IH]; [done|].
  rewrite fmap_cons, !filter_cons. case_decide; [|done].
  by rewrite fmap_cons, IH.
Qed.

(** X5. After the loop every group of [race_group_map] holds the records
    created for the runners of that race, in the order the runners had
    in the caller's list. *)
Theorem race_groups_keep_input_order all_races :
  ∃ st,
    for_loop init_locals (sort_races all_races) = Ok st ∧
    ∀ k, original <$> dd_get k (race_group_map st)
         = filter (λ x, race_key x = k) all_races.
Proof.
  destruct (race_group_map_enriched all_races) as (st & Hrun & Hg).
  exists st. split; [done|]. intros k.
  rewrite Hg.
  rewrite original_filter_key, replay_original. apply sort_races_stable.
Qed.

Lemma lookup_dd_append {K} `{Countable K} {V} (k k' : K) (v : V) d :
  dd_append k v d !! k'
  = if decide (k = k') then Some (dd_get k d ++ [v]) else d !! k'.
Proof. unfold dd_append. rewrite lookup_insert. by case_decide. Qed.

Lemma dd_append_stored (f : Race → string) m pre race :
  (∀ k, m !! k
        = if decide (filter (λ x, f x = k) pre = []) then None
          else Some (filter (λ x, f x = k) pre)) →
  ∀ k, dd_append (f race) race m !! k
       = if decide (filter (λ x, f x = k) (pre ++ [race]) = []) then None
         else Some (filter (λ x, f x = k) (pre ++ [race])).
Proof.
  intros Hm k. rewrite lookup_dd_append, filter_app, filter_cons, filter_nil.
  destruct (decide (f race = k)) as [Hk|Hk].
  - rewrite decide_False by (by intros [_ ?]%app_eq_nil).
    do 2 f_equal. unfold dd_get. rewrite Hm, Hk.
    by case_decide as E; [rewrite E|].
  - rewrite app_nil_r. apply Hm.
Qed.

Lemma for_loop_stored st pre s :
  (∀ k, horse_races_map st !! k
        = if decide (filter (λ x, horse_id x = k) pre = []) then None
          else Some (filter (λ x, horse_id x = k) pre)) →
  (∀ k, jockey_races_map st !! k
        = if decide (filter (λ x, jockey x = k) pre = []) then None
          else Some (filter (λ x, jockey x = k) pre)) →
  ∃ st',
    for_loop st s = Ok st' ∧
    (∀ k, horse_races_map st' !! k
          = if decide (filter (λ x, horse_id x = k) (pre ++ s) = []) then None
            else Some (filter (λ x, horse_id x = k) (pre ++ s))) ∧
    (∀ k, jockey_races_map st' !! k
          = if decide (filter (λ x, jockey x = k) (pre ++ s) = []) then None
            else Some (filter (λ x, jockey x = k) (pre ++ s))).
Proof.
  revert st pre. induction s as [|race s IH]; intros st pre Hh Hj; simpl.
  { exists st. by rewrite app_nil_r. }
  unfold loop_body. rewrite enrich_stats_of. cbn [mbind result_bind].
  set (rs := stats_of race _ _).
  destruct (IH (remember st race rs) (pre ++ [race])) as (st' & Hrun & Hh' & Hj').
  - apply (dd_append_stored horse_id), Hh.
  - apply (dd_append_stored jockey), Hj.
  - exists st'. rewrite <- app_assoc in Hh', Hj'. done.
Qed.

Lemma filter_nil_iff {A} (P : A → Prop) `{∀ x, Decision (P x)} (l : list A) :
  filter P l = [] ↔ Forall (λ x, ¬ P x) l.
Proof.
  split; [|apply filter_none].
  intros E. apply Forall_forall. intros x Hx HP.
  by apply (filter_nil_not_elem_of P l x).
Qed.

Lemma stored_histories (f : Race → string) (m : gmap string (list Race))
    all_races :
  (∀ k, m !! k
        = if decide (filter (λ x, f x = k) (sort_races all_races) = [])
          then None
          else Some (filter (λ x, f x = k) (sort_races all_races))) →
  ∀ k,
    (m !! k = None ↔ k ∉ f <$> all_races) ∧
    m !! k ≠ Some [] ∧
    StronglySorted race_le (dd_get k m) ∧
    dd_get k m ≡ₚ filter (λ x, f x = k) all_races.
Proof.
  intros Hm k.
  assert (dd_get k m = filter (λ x, f x = k) (sort_races all_races)) as Hget.
  { unfold dd_get. rewrite Hm. by case_decide as E; [rewrite E|]. }
  split_and!.
  - rewrite Hm. case_decide as E.
    + split; [intros _|done].
      apply filter_nil_iff in E. rewrite Forall_forall in E.
      intros (x & -> & Hx)%list_elem_of_fmap.
      apply (E x); [|done]. by rewrite sort_races_Permutation.
    + split; [done|]. intros Hk. exfalso. apply E, filter_nil_iff.
      apply Forall_forall. intros x Hx Hfx. apply Hk.
      apply list_elem_of_fmap. exists x. split; [done|].
      by rewrite <- (sort_races_Permutation all_races).
  - rewrite Hm. by case_decide; [|intros [=]].
  - rewrite Hget. apply StronglySorted_race_le_filter, sort_races_sorted.
  - by rewrite Hget, sort_races_Permutation.
Qed.

(** X6. After the loop the two history maps have a key exactly for the
    horses (jockeys) of the input, never hold an empty list, and the
    history of each is the list of its records in the input, in ascending
    order of [(date, race_index)]. *)
Theorem final_histories all_races :
  ∃ st,
    for_loop init_locals (sort_races all_races) = Ok st ∧
    (∀ h,
       (horse_races_map st !! h = None ↔ h ∉ horse_id <$> all_races) ∧
       horse_races_map st !! h ≠ Some [] ∧
       StronglySorted race_le (dd_get h (horse_races_map st)) ∧
       dd_get h (horse_races_map st)
       ≡ₚ filter (λ x, horse_id x = h) all_races) ∧
    (∀ j,
       (jockey_races_map st !! j = None ↔ j ∉ jockey <$> all_races) ∧
       jockey_races_map st !! j ≠ Some [] ∧
       StronglySorted race_le (dd_get j (jockey_races_map st)) ∧
       dd_get j (jockey_races_map st)
       ≡ₚ filter (λ x, jockey x = j) all_races).
Proof.
  destruct (for_loop_stored init_locals [] (sort_races all_races))
    as (st & Hrun & Hh & Hj).
  - intros k. simpl. by rewrite lookup_empty.
  - intros k. simpl. by rewrite lookup_empty.
  - exists st. split; [done|]. simpl in Hh, Hj. split.
    + by apply stored_histories.
    + by apply stored_histories.
Qed.

(** ** Two runs of one horse in a row *)

(** X7. When [r2] is the next record of the horse of [r1] in the sorted
    list, the record created for [r2] has one more run than the record
    created for [r1], and its [days_since_last_run] is the number of
    days from the date of [r1] to the date of [r2]. *)
Theorem consecutive_runs all_races pre r1 mid r2 suf :
  sort_races all_races = pre ++ r1 :: mid ++ r2 :: suf →
  horse_id r1 = horse_id r2 →
  Forall (λ x, horse_id x ≠ horse_id r2) mid →
  ∃ race_stats1 race_stats2,
    creates_at all_races (length pre) race_stats1 ∧
    creates_at all_races (length pre + 1 + length mid)%nat race_stats2 ∧
    original race_stats1 = r1 ∧
    original race_stats2 = r2 ∧
    num_races_run race_stats2 = num_races_run race_stats1 + 1 ∧
    days_since_last_run race_stats2 = date r2 - date r1 ∧
    0 ≤ days_since_last_run race_stats2.
Proof.
  intros Hs Hh Hmid.
  assert (sort_races all_races = (pre ++ r1 :: mid) ++ r2 :: suf) as Hs'.
  { by rewrite <- app_assoc. }
  pose proof (iteration_creates _ _ _ _ Hs) as H1.
  pose proof (iteration_creates _ _ _ _ Hs') as H2.
  rewrite length_app in H2. simpl in H2.
  replace (length pre + S (length mid))%nat
    with (length pre + 1 + length mid)%nat in H2 by lia.
  do 2 eexists. split; [exact H1|]. split; [exact H2|].
  assert (filter (λ x, horse_id x = horse_id r2) (pre ++ r1 :: mid)
          = filter (λ x, horse_id x = horse_id r2) pre ++ [r1]) as ->.
  { rewrite filter_app, filter_cons_True by done.
    by rewrite (filter_none _ mid). }
  unfold stats_of.
  cbn [original num_races_run days_since_last_run].
  rewrite last_snoc, length_app, Hh. simpl length.
  split; [done|]. split; [done|]. split; [lia|]. split; [done|].
  assert (r1 ∈ pre ++ r1 :: mid) as Hin by set_solver.
  pose proof (race_le_date _ _ (sorted_prefix_le _ _ _ _ _ Hs' Hin)). lia.
Qed.

(** ** The loop from any state *)

(** X8. From any state of the three maps the loop runs to its end
    without raising, and all it does to the maps is append: each history
    is the one before followed by the records of that horse (jockey) in
    the order processed, each race group starts with the group before,
    and [enhanced_races] is left as it was. *)
Theorem for_loop_appends_only st s :
  ∃ st',
    for_loop st s = Ok st' ∧
    (∀ h, dd_get h (horse_races_map st')
          = dd_get h (horse_races_map st) ++ filter (λ x, horse_id x = h) s) ∧
    (∀ j, dd_get j (jockey_races_map st')
          = dd_get j (jockey_races_map st) ++ filter (λ x, jockey x = j) s) ∧
    (∀ k, dd_get k (race_group_map st) `prefix_of`
          dd_get k (race_group_map st')) ∧
    enhanced_races st' = enhanced_races st.
Proof.
  revert st. induction s as [|race s IH]; intros st; simpl.
  { exists st. split; [done|].
    split; [intros h; by rewrite app_nil_r|].
    split; [intros j; by rewrite app_nil_r|]. done. }
  unfold loop_body. rewrite enrich_stats_of. cbn [mbind result_bind].
  set (rs := stats_of race _ _).
  destruct (IH (remember st race rs)) as (st' & Hrun & Hh & Hj & Hg & He).
  exists st'. split; [done|]. split_and!.
  - intros h. rewrite Hh. simpl. rewrite dd_get_append, filter_cons.
    case_decide as E; [subst h; by rewrite <- app_assoc|done].
  - intros j. rewrite Hj. simpl. rewrite dd_get_append, filter_cons.
    case_decide as E; [subst j; by rewrite <- app_assoc|done].
  - intros k. etrans; [|apply Hg]. simpl. rewrite dd_get_append.
    case_decide as E; [subst k; by apply prefix_app_r|done].
  - by rewrite He.
Qed.

(** ** Calling again *)

(** X9. A second call on the list the first call left sorted leaves the
    list as it is, returns the same, and creates the same records as the
    first call did. *)
Theorem second_call_same all_races caller_list enhanced :
  compute_derived_variables all_races = Ok (caller_list, enhanced) →
  compute_derived_variables caller_list = Ok (caller_list, enhanced) ∧
  enriched_records caller_list = enriched_records all_races.
Proof.
  rewrite compute_derived_variables_returns_nil. intros [= <- <-].
  assert (sort_races (sort_races all_races) = sort_races all_races) as E.
  { apply sort_races_id, sort_races_sorted. }
  split.
  - by rewrite compute_derived_variables_returns_nil, E.
  - unfold enriched_records. by rewrite E.
Qed.

(** ** The script *)

(** X10. Whatever the input and whatever text the csv writer would
    build, the end of the script gets the empty string from
    [race_with_stats_to_csv] and [testing.csv] is not written: the list
    handed over is always empty and the function returns before it
    opens the file. *)
Theorem script_writes_nothing (render_csv : list RaceWithStats → string)
    all_races :
  script render_csv all_races
  = Ok {| csv_content := EmptyString; testing_csv := None |}.
Proof.
  unfold script. by rewrite compute_derived_variables_returns_nil.
Qed.

(** ** The sort has one possible result *)

Lemma race_le_antisym_key x y :
  race_le x y → race_le y x → race_key x = race_key y.
Proof.
  unfold race_le, key_le.
  destruct (race_key x) as [d i], (race_key y) as [d' i']; simpl.
  intros ? ?. f_equal; lia.
Qed.

Lemma race_le_refl x : race_le x x.
Proof. unfold race_le, key_le. lia. Qed.

Lemma sorted_head_le x s y :
  StronglySorted race_le (x :: s) → y ∈ x :: s → race_le x y.
Proof.
  intros [_ Hx]%StronglySorted_inv [->|Hy]%elem_of_cons.
  - apply race_le_refl.
  - rewrite Forall_forall in Hx. by apply Hx.
Qed.

Lemma sorted_same_classes_eq s t :
  StronglySorted race_le s → StronglySorted race_le t →
  (∀ k, filter (λ x, race_key x = k) s = filter (λ x, race_key x = k) t) →
  s = t.
Proof.
  intros Hs. revert t. induction s as [|x s IH]; intros t Ht Hc.
  - destruct t as [|y t]; [done|].
    specialize (Hc (race_key y)). by rewrite filter_cons_True in Hc.
  - destruct t as [|y t].
    { specialize (Hc (race_key x)). by rewrite filter_cons_True in Hc. }
    assert (race_key x = race_key y) as Hk.
    { apply race_le_antisym_key.
      - apply (sorted_head_le _ s); [done|].
        assert (y ∈ filter (λ z, race_key z = race_key y) (x :: s)) as Hy.
        { rewrite Hc, filter_cons_True by done. left. }
        by apply list_elem_of_filter in Hy as [_ ?].
      - apply (sorted_head_le _ t); [done|].
        assert (x ∈ filter (λ z, race_key z = race_key x) (y :: t)) as Hx.
        { rewrite <- Hc, filter_cons_True by done. left. }
        by apply list_elem_of_filter in Hx as [_ ?]. }
    pose proof (Hc (race_key x)) as Hcx.
    rewrite !filter_cons_True in Hcx by done.
    injection Hcx as -> Hcx. f_equal.
    apply IH.
    + by apply StronglySorted_inv in Hs as [? _].
    + by apply StronglySorted_inv in Ht as [? _].
    + intros k. specialize (Hc k). rewrite !filter_cons in Hc.
      case_decide; [by injection Hc|done].
Qed.

(** X11. The list left to the caller is the only list that is in
    ascending order of [(date, race_index)] and keeps, for every key, the
    records of that key in the order of the input: any stable sort by
    that key gives it. *)
Theorem stable_sort_unique all_races s :
  StronglySorted race_le s →
  (∀ k, filter (λ x, race_key x = k) s
        = filter (λ x, race_key x = k) all_races) →
  s = sort_races all_races.
Proof.
  intros Hs Hc. apply sorted_same_classes_eq; [done|apply sort_races_sorted|].
  intros k. by rewrite Hc, sort_races_stable.
Qed.

(** ** Horses do not interfere *)

(** X12. The variables set by the creators of the horse depend on the
    records processed before only through the records of that horse:
    two passes that agree on them give the same values, whatever other
    horses ran and whoever rode. *)
Theorem horse_variables_need_own_history pre pre' race :
  filter (λ x, horse_id x = horse_id race) pre
  = filter (λ x, horse_id x = horse_id race) pre' →
  ∃ st st' race_stats race_stats',
    for_loop init_locals pre = Ok st ∧
    for_loop init_locals pre' = Ok st' ∧
    enrich st race = Ok race_stats ∧
    enrich st' race = Ok race_stats' ∧
    horse_derived race_stats = horse_derived race_stats'.
Proof.
  intros E.
  destruct (iteration pre race) as (st & Hrun & _ & Hen).
  destruct (iteration pre' race) as (st' & Hrun' & _ & Hen').
  exists st, st'. do 2 eexists.
  split; [exact Hrun|]. split; [exact Hrun'|].
  split; [exact Hen|]. split; [exact Hen'|].
  unfold horse_derived, stats_of. simpl. by rewrite E.
Qed.

(** ** Concrete runs, continued *)

(** The second run of horse A, in the season of its first. *)
Lemma seasonal_run_count_witness :
  sort_races [ex_later; ex_first] = [ex_first] ++ ex_later :: [] ∧
  ∃ race_stats,
    creates_at [ex_later; ex_first] 1 race_stats ∧
    num_races_run_seasonal race_stats = 1.
Proof.
  assert (sort_races [ex_later; ex_first] = [ex_first] ++ ex_later :: [])
    as Hs by reflexivity.
  split; [exact Hs|].
  destruct (seasonal_run_count _ _ _ _ Hs) as (rs & Hc & Hn).
  exists rs. split; [exact Hc|exact Hn].
Defined.

(** The record created for the second run of horse A. *)
Lemma created_counts_ordered_witness :
  creates_at [ex_later; ex_first] 1 (stats_of ex_later [ex_first] []) ∧
  num_races_top3 (stats_of ex_later [ex_first] [])
  ≤ num_races_run (stats_of ex_later [ex_first] []) ∧
  num_races_run (stats_of ex_later [ex_first] []) ≤ 1.
Proof.
  assert (creates_at [ex_later; ex_first] 1 (stats_of ex_later [ex_first] []))
    as Hc.
  { exact (iteration_creates [ex_later; ex_first] [ex_first] ex_later []
             eq_refl). }
  split; [exact Hc|].
  destruct (created_counts_ordered _ _ _ Hc)
    as (_ & _ & _ & H3 & _ & _ & Hi & _).
  split; [exact H3|exact Hi].
Defined.

(** The same record: one win in one run. *)
Lemma created_rates_consistent_witness :
  creates_at [ex_later; ex_first] 1 (stats_of ex_later [ex_first] []) ∧
  num_races_run (stats_of ex_later [ex_first] []) ≠ 0 ∧
  percent_races_top1 (stats_of ex_later [ex_first] []) = FQuot 1 1.
Proof.
  assert (creates_at [ex_later; ex_first] 1 (stats_of ex_later [ex_first] []))
    as Hc.
  { exact (iteration_creates [ex_later; ex_first] [ex_first] ex_later []
             eq_refl). }
  assert (num_races_run (stats_of ex_later [ex_first] []) ≠ 0) as Hn
    by discriminate.
  split; [exact Hc|]. split; [exact Hn|].
  destruct (created_rates_consistent _ _ _ Hc) as [Hr _].
  destruct (Hr Hn) as [H1 _]. exact H1.
Defined.

(** Horse A runs on day 10 and on day 20, horse B in between. *)
Lemma consecutive_runs_witness :
  sort_races [ex_later; ex_first; ex_other]
  = [] ++ ex_first :: [ex_other] ++ ex_later :: [] ∧
  horse_id ex_first = horse_id ex_later ∧
  Forall (λ x, horse_id x ≠ horse_id ex_later) [ex_other] ∧
  ∃ race_stats1 race_stats2,
    creates_at [ex_later; ex_first; ex_other] 0 race_stats1 ∧
    creates_at [ex_later; ex_first; ex_other] 2 race_stats2 ∧
    num_races_run race_stats2 = num_races_run race_stats1 + 1 ∧
    days_since_last_run race_stats2 = 10.
Proof.
  assert (sort_races [ex_later; ex_first; ex_other]
          = [] ++ ex_first :: [ex_other] ++ ex_later :: []) as Hs
    by reflexivity.
  assert (horse_id ex_first = horse_id ex_later) as Hh by reflexivity.
  assert (Forall (λ x, horse_id x ≠ horse_id ex_later) [ex_other]) as Hm.
  { repeat constructor. discriminate. }
  split; [exact Hs|]. split; [exact Hh|]. split; [exact Hm|].
  destruct (consecutive_runs _ _ _ _ _ _ Hs Hh Hm)
    as (rs1 & rs2 & H1 & H2 & _ & _ & Hn & Hd & _).
  exists rs1, rs2. split; [exact H1|]. split; [exact H2|].
  split; [exact Hn|exact Hd].
Defined.

(** A call on two records, then a call on the list it left. *)
Lemma second_call_same_witness :
  compute_derived_variables [ex_later; ex_first]
  = Ok ([ex_first; ex_later], []) ∧
  compute_derived_variables [ex_first; ex_later]
  = Ok ([ex_first; ex_later], []) ∧
  enriched_records [ex_first; ex_later] = enriched_records [ex_later; ex_first].
Proof.
  assert (compute_derived_variables [ex_later; ex_first]
          = Ok ([ex_first; ex_later], [])) as Hc
    by apply compute_derived_variables_returns_nil.
  split; [exact Hc|].
  exact (second_call_same _ _ _ Hc).
Defined.

(** Three records, two of them of one race. *)
Lemma stable_sort_unique_witness :
  StronglySorted race_le [ex_first; ex_other; ex_later] ∧
  (∀ k, filter (λ x, race_key x = k) [ex_first; ex_other; ex_later]
        = filter (λ x, race_key x = k) [ex_later; ex_first; ex_other]) ∧
  [ex_first; ex_other; ex_later] = sort_races [ex_later; ex_first; ex_other].
Proof.
  assert (StronglySorted race_le [ex_first; ex_other; ex_later]) as Hs.
  { repeat constructor; unfold race_le, key_le; simpl; lia. }
  assert (∀ k, filter (λ x, race_key x = k) [ex_first; ex_other; ex_later]
               = filter (λ x, race_key x = k) [ex_later; ex_first; ex_other])
    as Hc.
  { intros k. rewrite !filter_cons, !filter_nil.
    change (race_key ex_first) with (10, 1).
    change (race_key ex_other) with (10, 1).
    change (race_key ex_later) with (20, 2).
    repeat case_decide; congruence. }
  split; [exact Hs|]. split; [exact Hc|].
  exact (stable_sort_unique _ _ Hs Hc).
Defined.

(** The second run of horse A, with and without horse B before it. *)
Lemma horse_variables_need_own_history_witness :
  filter (λ x, horse_id x = horse_id ex_later) [ex_first]
  = filter (λ x, horse_id x = horse_id ex_later) [ex_first; ex_other] ∧
  ∃ st st' race_stats race_stats',
    for_loop init_locals [ex_first] = Ok st ∧
    for_loop init_locals [ex_first; ex_other] = Ok st' ∧
    enrich st ex_later = Ok race_stats ∧
    enrich st' ex_later = Ok race_stats' ∧
    horse_derived race_stats = horse_derived race_stats'.
Proof.
  assert (filter (λ x, horse_id x = horse_id ex_later) [ex_first]
          = filter (λ x, horse_id x = horse_id ex_later) [ex_first; ex_other])
    as E by reflexivity.
  split; [exact E|].
  exact (horse_variables_need_own_history _ _ _ E).
Defined.

(** ** The outcome of a run is counted from the next run on *)

Lemma placed_snoc code H x :
  placed code (H ++ [x])
  = placed code H + (if decide (pla x = code) then 1 else 0).
Proof.
  unfold placed. rewrite filter_app, length_app, filter_cons, filter_nil.
  case_decide; simpl; lia.
Qed.

(** X13. When [r2] is the next record of the horse of [r1] in the sorted
    list, the top counts created for [r2] are those created for [r1]
    plus the outcome of [r1]: a "01" adds one to all three, a "02" to
    top 2 and top 3, a "03" to top 3, and any other code adds nothing. *)
Theorem placement_counted_next all_races pre r1 mid r2 suf :
  sort_races all_races = pre ++ r1 :: mid ++ r2 :: suf →
  horse_id r1 = horse_id r2 →
  Forall (λ x, horse_id x ≠ horse_id r2) mid →
  ∃ race_stats1 race_stats2,
    creates_at all_races (length pre) race_stats1 ∧
    creates_at all_races (length pre + 1 + length mid)%nat race_stats2 ∧
    let won := if decide (pla r1 = "01"%string) then 1 else 0 in
    let second := if decide (pla r1 = "02"%string) then 1 else 0 in
    let third := if decide (pla r1 = "03"%string) then 1 else 0 in
    num_races_top1 race_stats2 = num_races_top1 race_stats1 + won ∧
    num_races_top2 race_stats2 = num_races_top2 race_stats1 + won + second ∧
    num_races_top3 race_stats2
    = num_races_top3 race_stats1 + won + second + third ∧
    (pla r1 ∉ top3_codes →
       num_races_top3 race_stats2 = num_races_top3 race_stats1).
Proof.
  intros Hs Hh Hmid.
  assert (sort_races all_races = (pre ++ r1 :: mid) ++ r2 :: suf) as Hs'.
  { by rewrite <- app_assoc. }
  pose proof (iteration_creates _ _ _ _ Hs) as H1.
  pose proof (iteration_creates _ _ _ _ Hs') as H2.
  rewrite length_app in H2. simpl in H2.
  replace (length pre + S (length mid))%nat
    with (length pre + 1 + length mid)%nat in H2 by lia.
  do 2 eexists. split; [exact H1|]. split; [exact H2|].
  assert (filter (λ x, horse_id x = horse_id r2) (pre ++ r1 :: mid)
          = filter (λ x, horse_id x = horse_id r2) pre ++ [r1]) as ->.
  { rewrite filter_app, filter_cons_True by done.
    by rewrite (filter_none _ mid). }
  unfold stats_of.
  cbn [num_races_top1 num_races_top2 num_races_top3]. cbv zeta.
  rewrite !placed_snoc, Hh.
  split; [lia|]. split; [lia|]. split; [lia|].
  intros Hno. rewrite !decide_False; [lia|..];
    intros Heq; apply Hno; rewrite Heq; unfold top3_codes; set_solver.
Qed.

(** Horse A wins on day 10; its next record counts the win. *)
Lemma placement_counted_next_witness :
  sort_races [ex_later; ex_first; ex_other]
  = [] ++ ex_first :: [ex_other] ++ ex_later :: [] ∧
  horse_id ex_first = horse_id ex_later ∧
  Forall (λ x, horse_id x ≠ horse_id ex_later) [ex_other] ∧
  ∃ race_stats1 race_stats2,
    creates_at [ex_later; ex_first; ex_other] 0 race_stats1 ∧
    creates_at [ex_later; ex_first; ex_other] 2 race_stats2 ∧
    num_races_top1 race_stats2 = num_races_top1 race_stats1 + 1.
Proof.
  assert (sort_races [ex_later; ex_first; ex_other]
          = [] ++ ex_first :: [ex_other] ++ ex_later :: []) as Hs
    by reflexivity.
  assert (horse_id ex_first = horse_id ex_later) as Hh by reflexivity.
  assert (Forall (λ x, horse_id x ≠ horse_id ex_later) [ex_other]) as Hm.
  { repeat constructor. discriminate. }
  split; [exact Hs|]. split; [exact Hh|]. split; [exact Hm|].
  destruct (placement_counted_next _ _ _ _ _ _ Hs Hh Hm)
    as (rs1 & rs2 & H1 & H2 & Ht1 & _).
  exists rs1, rs2. split; [exact H1|]. split; [exact H2|exact Ht1].
Defined.

(** ** The order of the registry *)

Lemma last_item_cons {A} (x : A) l : ∃ y, last_item (x :: l) = Ok y.
Proof.
  unfold last_item. destruct (last (x :: l)) as [y|] eqn:E; [by exists y|].
  by apply last_None in E.
Qed.

(** Two creators of the horse, called one after the other on a history
    that is not empty, give the same record in either order. *)
Lemma variable_creators_commute f1 f2 race_stats x H :
  f1 ∈ variable_creators → f2 ∈ variable_creators →
  (f1 race_stats (x :: H) ≫= λ rs, f2 rs (x :: H))
  = (f2 race_stats (x :: H) ≫= λ rs, f1 rs (x :: H)).
Proof.
  unfold variable_creators. intros H1 H2.
  destruct (last_item_cons x H) as [prev Hprev].
  apply elem_of_cons in H1 as [->|H1];
    [|apply elem_of_cons in H1 as [->|H1];
      [|apply elem_of_cons in H1 as [->|H1]; [|by apply elem_of_nil in H1]]];
  (apply elem_of_cons in H2 as [->|H2];
    [|apply elem_of_cons in H2 as [->|H2];
      [|apply elem_of_cons in H2 as [->|H2]; [|by apply elem_of_nil in H2]]]);
  try reflexivity;
  rewrite ?_compute_num_races_run_cons;
  unfold _compute_num_races_run_seasonal, _compute_days_since_last_run;
  rewrite ?Hprev; cbn [mbind result_bind];
  rewrite ?_compute_num_races_run_cons, ?Hprev; reflexivity.
Qed.

Lemma variable_creators_original f race_stats race_stats' H :
  f ∈ variable_creators → f race_stats H = Ok race_stats' →
  original race_stats' = original race_stats.
Proof.
  unfold variable_creators. intros Hf.
  apply elem_of_cons in Hf as [->|Hf];
    [|apply elem_of_cons in Hf as [->|Hf];
      [|apply elem_of_cons in Hf as [->|Hf]; [|by apply elem_of_nil in Hf]]].
  - destruct H as [|x H]; [done|].
    rewrite _compute_num_races_run_cons. by intros [= <-].
  - by intros [= <-].
  - unfold _compute_days_since_last_run.
    destruct (last_item H) as [prev|e]; [|done]. by intros [= <-].
Qed.

Lemma run_creators_swap m f1 f2 rest race_stats :
  f1 ∈ variable_creators → f2 ∈ variable_creators →
  run_creators (λ rs, horse_id (original rs)) m (f1 :: f2 :: rest) race_stats
  = run_creators (λ rs, horse_id (original rs)) m (f2 :: f1 :: rest) race_stats.
Proof.
  intros H1 H2.
  destruct (dd_get (horse_id (original race_stats)) m) as [|x H] eqn:EH.
  { rewrite !run_creators_skip; done. }
  pose proof (variable_creators_commute f1 f2 race_stats x H H1 H2) as Hc.
  simpl. rewrite EH.
  destruct (f1 race_stats (x :: H)) as [rs1|e1] eqn:E1;
    destruct (f2 race_stats (x :: H)) as [rs2|e2] eqn:E2;
    cbn [mbind result_bind] in Hc |- *.
  - rewrite (variable_creators_original _ _ _ _ H1 E1),
      (variable_creators_original _ _ _ _ H2 E2), EH.
    by rewrite Hc.
  - rewrite (variable_creators_original _ _ _ _ H1 E1), EH. by rewrite Hc.
  - rewrite (variable_creators_original _ _ _ _ H2 E2), EH. by rewrite <- Hc.
  - done.
Qed.

Lemma run_creators_Permutation m creators creators' :
  creators ≡ₚ creators' →
  Forall (λ f, f ∈ variable_creators) creators →
  ∀ race_stats,
    run_creators (λ rs, horse_id (original rs)) m creators race_stats
    = run_creators (λ rs, horse_id (original rs)) m creators' race_stats.
Proof.
  induction 1 as [|f l l' Hp IH|f1 f2 l|l l' l'' Hp IH Hp' IH'];
    intros Hall race_stats.
  - done.
  - apply Forall_cons in Hall as [_ Hall]. simpl.
    destruct (match dd_get (horse_id (original race_stats)) m with
              | [] => Ok race_stats
              | _ :: _ => f race_stats
                            (dd_get (horse_id (original race_stats)) m)
              end) as [rs|e]; cbn [mbind result_bind]; [by apply IH|done].
  - apply Forall_cons in Hall as [H1 Hall].
    apply Forall_cons in Hall as [H2 _].
    by apply run_creators_swap.
  - rewrite IH by done. apply IH'. by rewrite <- Hp.
Qed.

(** X14. The order in which the three creators of the horse are
    registered does not matter: called in any order they leave the same
    record. *)
Theorem registry_order_irrelevant creators m race_stats :
  creators ≡ₚ variable_creators →
  run_creators (λ rs, horse_id (original rs)) m creators race_stats
  = run_creators (λ rs, horse_id (original rs)) m variable_creators race_stats.
Proof.
  intros Hp. apply run_creators_Permutation; [done|].
  apply Forall_forall. intros f Hf. by rewrite <- Hp.
Qed.

(** The registry in reverse. *)
Lemma registry_order_irrelevant_witness :
  [_compute_days_since_last_run; _compute_num_races_run_seasonal;
   _compute_num_races_run] ≡ₚ variable_creators ∧
  run_creators (λ rs, horse_id (original rs)) {[ "A"%string := [ex_first] ]}
    [_compute_days_since_last_run; _compute_num_races_run_seasonal;
     _compute_num_races_run] (new_RaceWithStats ex_later)
  = run_creators (λ rs, horse_id (original rs)) {[ "A"%string := [ex_first] ]}
      variable_creators (new_RaceWithStats ex_later).
Proof.
  assert ([_compute_days_since_last_run; _compute_num_races_run_seasonal;
           _compute_num_races_run] ≡ₚ variable_creators) as Hp.
  { exact (reverse_Permutation variable_creators). }
  split; [exact Hp|].
  exact (registry_order_irrelevant _ _ _ Hp).
Defined.
